(** * Srcubmail: the email extraction and clipboard pipeline

    A shallow embedding of [src/utils/emailUtils.ts] and of the clipboard
    utilities ([utils/clipboardUtils], the last part of
    [src/services/chromeService.ts] in this tree): the two regular
    expressions, the extractor, the validator, the deduplicator, the
    clipboard formatter and the copy call, with the ECMAScript built-ins
    they use ([trim], [match], [test], [Set], [join]) written out. *)

From Stdlib Require Import String Ascii DecimalString.
From Stdlib Require Import List NArith Arith Lia Bool.
Import ListNotations.

Set Implicit Arguments.
Local Open Scope N_scope.

(** ** JavaScript strings

    A JavaScript string is a sequence of UTF-16 code units. *)

Definition codeunit := N.
Definition jsstring := list codeunit.

(** Literals are written as Rocq strings and read code unit by code unit. *)
Definition js (s : string) : jsstring :=
  map N_of_ascii (list_ascii_of_string s).

Definition codeunit_eq_dec : forall a b : codeunit, {a = b} + {a <> b} := N.eq_dec.
Definition jsstring_eq_dec : forall a b : jsstring, {a = b} + {a <> b} :=
  list_eq_dec codeunit_eq_dec.
Definition jsstring_eqb (a b : jsstring) : bool :=
  if jsstring_eq_dec a b then true else false.

Definition LF : codeunit := 10.
Definition AT : codeunit := 64.
Definition DOT : codeunit := 46.

Definition between (lo hi ch : codeunit) : bool := (lo <=? ch) && (ch <=? hi).

(** WhiteSpace and LineTerminator code points, the ones [trim] strips. *)
Definition isWhiteSpace (ch : codeunit) : bool :=
  between 9 13 ch || (ch =? 32) || (ch =? 160) || (ch =? 5760) ||
  between 8192 8202 ch || (ch =? 8232) || (ch =? 8233) || (ch =? 8239) ||
  (ch =? 8287) || (ch =? 12288) || (ch =? 65279).

Fixpoint trimStart (s : jsstring) : jsstring :=
  match s with
  | ch :: t => if isWhiteSpace ch then trimStart t else s
  | [] => []
  end.

Definition trimEnd (s : jsstring) : jsstring := rev (trimStart (rev s)).

(** [String.prototype.trim] *)
Definition trim (s : jsstring) : jsstring := trimEnd (trimStart s).

Definition isAscii (ch : codeunit) : bool := ch <? 128.
Definition isUpper (ch : codeunit) : bool := between 65 90 ch.
Definition isLower (ch : codeunit) : bool := between 97 122 ch.
Definition isDigit (ch : codeunit) : bool := between 48 57 ch.
Definition isAlpha (ch : codeunit) : bool := isUpper ch || isLower ch.

Definition asciiLower (ch : codeunit) : codeunit :=
  if isUpper ch then ch + 32 else ch.
Definition asciiUpper (ch : codeunit) : codeunit :=
  if isLower ch then ch - 32 else ch.

(** [String.prototype.toLowerCase] follows the Unicode case tables of the
    host, on code points and with context (final sigma); it is not a map
    over code units. The embedding takes it from the host, with the one
    law the pipeline relies on: on ASCII text it lowers [A-Z] and nothing
    else. *)
Class Host := {
  toLowerCase : jsstring -> jsstring;
  toLowerCase_ascii :
    forall s, forallb isAscii s = true -> toLowerCase s = map asciiLower s
}.

(** The case mapping of a host to run the definitions on ([latin1Host]
    below): ASCII and Latin-1 letters are lowered, every other code unit is
    kept. *)
Definition latin1Lower (ch : codeunit) : codeunit :=
  if isUpper ch || (between 192 222 ch && negb (ch =? 215)) then ch + 32 else ch.

(** ** Values

    The functions are typed in TypeScript but guard their arguments at run
    time ([typeof], [Array.isArray], truthiness), so an argument is a
    JavaScript value. Arrays hold strings, as the signatures say; of a
    number only its type and its truthiness are looked at. *)

Inductive JsValue :=
| JUndefined
| JNull
| JBoolean (b : bool)
| JNumber (n : N)
| JString (s : jsstring)
| JArray (xs : list jsstring)
| JObject.

Inductive JsType := TUndefined | TObject | TBoolean | TNumber | TString.

Definition typeof (v : JsValue) : JsType :=
  match v with
  | JUndefined => TUndefined
  | JNull => TObject
  | JBoolean _ => TBoolean
  | JNumber _ => TNumber
  | JString _ => TString
  | JArray _ => TObject
  | JObject => TObject
  end.

(** [ToBoolean] *)
Definition truthy (v : JsValue) : bool :=
  match v with
  | JUndefined | JNull => false
  | JBoolean b => b
  | JNumber n => negb (n =? 0)
  | JString s => match s with [] => false | _ => true end
  | JArray _ | JObject => true
  end.

Definition isString (v : JsValue) : bool :=
  match typeof v with TString => true | _ => false end.

Definition isArray (v : JsValue) : bool :=
  match v with JArray _ => true | _ => false end.

(** ** Regular expressions

    The pattern language of the two literals: sequences, one capture group,
    the anchors, single characters, character classes, and a greedy
    quantifier [{min,}] on a class ([+] is [{1,}]). The matcher is the
    backtracking one of ECMAScript's pattern semantics, in continuation
    passing style. *)

Definition ClassRange := (codeunit * codeunit)%type.
Definition CharClass := list ClassRange.

Inductive Regex :=
| Empty
| Seq (r1 r2 : Regex)
| Group (r : Regex)
| AssertBegin
| AssertEnd
| Class (A : CharClass)
| AtLeast (min : nat) (A : CharClass).

Definition Char (ch : codeunit) : Regex := Class [(ch, ch)].

(** Canonicalize, without the [u] flag. Above ASCII the host's upper-casing
    decides, but it never maps a code unit from 128 up to one below 128;
    classes that hold ASCII only, as all classes of these sources do, see no
    difference from the identity there. *)
Definition Canonicalize (ignoreCase : bool) (ch : codeunit) : codeunit :=
  if ignoreCase && isAscii ch then asciiUpper ch else ch.

Definition rangeUnits (r : ClassRange) : list codeunit :=
  map N.of_nat (seq (N.to_nat (fst r)) (S (N.to_nat (snd r)) - N.to_nat (fst r))).

Definition classUnits (A : CharClass) : list codeunit := flat_map rangeUnits A.

(** CharacterSetMatcher: some member of the class canonicalizes as the
    input character does. *)
Definition inClass (ignoreCase : bool) (A : CharClass) (ch : codeunit) : bool :=
  existsb (fun a => Canonicalize ignoreCase a =? Canonicalize ignoreCase ch)
          (classUnits A).

Record MatchState := { endIndex : nat; remaining : jsstring }.
Definition MatchResult := option MatchState.
Definition Continuation := MatchState -> MatchResult.

(** RepeatMatcher for a class atom, greedy, without upper bound. *)
Fixpoint RepeatMatcher (p : codeunit -> bool) (min : nat) (c : Continuation)
         (i : nat) (s : jsstring) : MatchResult :=
  let stop := match min with
              | O => c {| endIndex := i; remaining := s |}
              | S _ => None
              end in
  match s with
  | ch :: t =>
      if p ch then
        match RepeatMatcher p (pred min) c (S i) t with
        | Some y => Some y
        | None => stop
        end
      else stop
  | [] => stop
  end.

Fixpoint matcher (ignoreCase : bool) (r : Regex) (x : MatchState)
         (c : Continuation) : MatchResult :=
  match r with
  | Empty => c x
  | Seq r1 r2 => matcher ignoreCase r1 x (fun y => matcher ignoreCase r2 y c)
  | Group r1 => matcher ignoreCase r1 x c
  | AssertBegin => match endIndex x with O => c x | S _ => None end
  | AssertEnd => match remaining x with [] => c x | _ :: _ => None end
  | Class A =>
      match remaining x with
      | ch :: t =>
          if inClass ignoreCase A ch
          then c {| endIndex := S (endIndex x); remaining := t |}
          else None
      | [] => None
      end
  | AtLeast min A =>
      RepeatMatcher (inClass ignoreCase A) min c (endIndex x) (remaining x)
  end.

(** A RegExp object: the pattern, its flags and the mutable [lastIndex]. *)
Record RegExp := {
  source : Regex;
  ignoreCase : bool;
  global : bool;
  lastIndex : nat
}.

Definition setLastIndex (re : RegExp) (i : nat) : RegExp :=
  {| source := source re; ignoreCase := ignoreCase re;
     global := global re; lastIndex := i |}.

Record Match := { index : nat; matched : jsstring; after : MatchState }.

(** The search loop of RegExpBuiltinExec: the first index from [i] on at
    which the pattern matches; [s] is the input from [i] on. *)
Fixpoint search (ic : bool) (r : Regex) (i : nat) (s : jsstring) : option Match :=
  match matcher ic r {| endIndex := i; remaining := s |} (fun y => Some y) with
  | Some y => Some {| index := i; matched := firstn (endIndex y - i) s; after := y |}
  | None =>
      match s with
      | [] => None
      | _ :: t => search ic r (S i) t
      end
  end.

(** RegExpBuiltinExec: the match, if any, and the object with its
    [lastIndex] updated (only a global pattern reads and writes it). *)
Definition RegExpBuiltinExec (re : RegExp) (input : jsstring)
  : option Match * RegExp :=
  let start := if global re then lastIndex re else O in
  if (length input <? start)%nat
  then (None, if global re then setLastIndex re 0 else re)
  else
    match search (ignoreCase re) (source re) start (skipn start input) with
    | None => (None, if global re then setLastIndex re 0 else re)
    | Some m =>
        (Some m, if global re then setLastIndex re (endIndex (after m)) else re)
    end.

(** [RegExp.prototype.test] *)
Definition RegExp_test (re : RegExp) (input : jsstring) : bool * RegExp :=
  match RegExpBuiltinExec re input with
  | (Some _, re') => (true, re')
  | (None, re') => (false, re')
  end.

(** The loop of [String.prototype.match] for a global pattern: collect the
    matched substrings; after an empty match [lastIndex] moves on by one. *)
Fixpoint matchLoop (fuel : nat) (re : RegExp) (input : jsstring) : list jsstring :=
  match fuel with
  | O => []
  | S fuel' =>
      match RegExpBuiltinExec re input with
      | (None, _) => []
      | (Some m, re') =>
          let re'' := match matched m with
                      | [] => setLastIndex re' (S (lastIndex re'))
                      | _ :: _ => re'
                      end in
          matched m :: matchLoop fuel' re'' input
      end
  end.

(** [input.match(re)] for a global [re]: [null] when nothing matches. Every
    round moves [lastIndex] on, so [length input + 2] rounds are enough
    ([matchLoop_fuel] below). *)
Definition String_match (input : jsstring) (re : RegExp) : option (list jsstring) :=
  match matchLoop (length input + 2) (setLastIndex re 0) input with
  | [] => None
  | ms => Some ms
  end.

(** ** The two patterns of [emailUtils.ts] *)

Definition letters : CharClass := [(97, 122); (65, 90)].
Definition localClass : CharClass :=
  [(97, 122); (65, 90); (48, 57); (46, 46); (95, 95); (37, 37); (43, 43); (45, 45)].
Definition domainClass : CharClass :=
  [(97, 122); (65, 90); (48, 57); (46, 46); (45, 45)].

Definition emailPattern : Regex :=
  Seq (AtLeast 1 localClass)
   (Seq (Char AT)
   (Seq (AtLeast 1 domainClass)
   (Seq (Char DOT)
        (AtLeast 2 letters)))).

(** [/([a-zA-Z0-9._%+-]+@[a-zA-Z0-9.-]+\.[a-zA-Z]{2,})/gi] *)
Definition EMAIL_REGEX : RegExp :=
  {| source := Group emailPattern; ignoreCase := true; global := true;
     lastIndex := 0 |}.

(** [/^[a-zA-Z0-9._%+-]+@[a-zA-Z0-9.-]+\.[a-zA-Z]{2,}$/] *)
Definition STRICT_EMAIL_REGEX : RegExp :=
  {| source := Seq AssertBegin (Seq emailPattern AssertEnd);
     ignoreCase := false; global := false; lastIndex := 0 |}.

Definition sampleContent : jsstring :=
  js "Contact: Jane@Example.com, jane@example.com, not-an-email, bob@sub.example.co.uk".

(** ** Effects

    The functions log to the console, write the clipboard, throw and catch.
    A computation takes the world and returns a completion and the new
    world; an [async] function that returns is a promise fulfilled
    ([Normal]), one that throws is a promise rejected ([Throw]). *)

Inductive JsError := Error (message : jsstring).

Inductive Completion (A : Type) :=
| Normal (a : A)
| Throw (e : JsError).
Arguments Throw {A} e.

Record World := {
  clipboard : jsstring;
  console : list (jsstring * JsError)
}.

Definition M (A : Type) := World -> Completion A * World.

Definition ret {A} (a : A) : M A := fun w => (Normal a, w).
Definition throw {A} (e : JsError) : M A := fun w => (Throw e, w).
Definition bind {A B} (m : M A) (k : A -> M B) : M B :=
  fun w => match m w with
           | (Normal a, w') => k a w'
           | (Throw e, w') => (Throw e, w')
           end.
Definition tryCatch {A} (body : M A) (handler : JsError -> M A) : M A :=
  fun w => match body w with
           | (Normal a, w') => (Normal a, w')
           | (Throw e, w') => handler e w'
           end.

Notation "x <- m ;; k" := (bind m (fun x => k))
  (at level 61, m at next level, right associativity).
Notation "m ;;; k" := (bind m (fun _ => k))
  (at level 61, right associativity).

(** [console.error(label, error)] *)
Definition consoleError (label : jsstring) (e : JsError) : M unit :=
  fun w => (Normal tt,
            {| clipboard := clipboard w; console := console w ++ [(label, e)] |}).

Definition writeClipboard (text : jsstring) : M unit :=
  fun w => (Normal tt, {| clipboard := text; console := console w |}).

(** ** [Set], [join], number to string *)

(** A [Set] of strings: its members in insertion order. *)
Definition JsSet := list jsstring.

Definition Set_has (s : JsSet) (x : jsstring) : bool := existsb (jsstring_eqb x) s.
Definition Set_add (s : JsSet) (x : jsstring) : JsSet :=
  if Set_has s x then s else s ++ [x].

(** [[...new Set(xs)]] *)
Definition Set_from (xs : list jsstring) : list jsstring := fold_left Set_add xs [].

(** [Array.prototype.join] *)
Fixpoint join (sep : jsstring) (xs : list jsstring) : jsstring :=
  match xs with
  | [] => []
  | [x] => x
  | x :: t => x ++ sep ++ join sep t
  end.

(** A length in a template literal: its decimal digits. *)
Definition Number_toString (n : nat) : jsstring :=
  js (NilEmpty.string_of_uint (Nat.to_uint n)).

(** ** [emailUtils.ts] *)

Record EmailScrapingResult := { emails : list jsstring }.

Record ScrapingOptions := {
  includeDuplicates : bool;
  filterPattern : option RegExp
}.

Definition defaultScrapingOptions : ScrapingOptions :=
  {| includeDuplicates := false; filterPattern := None |}.

(** [emails.filter((email) => re.test(email))]: the pattern object is one
    and the same through the whole filter. *)
Fixpoint filterTest (re : RegExp) (xs : list jsstring) : list jsstring :=
  match xs with
  | [] => []
  | email :: t =>
      match RegExp_test re email with
      | (true, re') => email :: filterTest re' t
      | (false, re') => filterTest re' t
      end
  end.

Section WithHost.
Context {host : Host}.

Definition extractEmailsFromHTML (htmlContent : JsValue)
           (options : ScrapingOptions) : M EmailScrapingResult :=
  tryCatch
    (if negb (truthy htmlContent) || negb (isString htmlContent)
     then throw (Error (js "Invalid HTML content provided"))
     else
       match htmlContent with
       | JString content =>
           let matches := String_match content EMAIL_REGEX in
           let found :=
             match matches with
             | Some ms =>
                 let cleaned :=
                   filter (fun email => fst (RegExp_test STRICT_EMAIL_REGEX email))
                          (map (fun email => toLowerCase (trim email)) ms) in
                 let deduped :=
                   if negb (includeDuplicates options)
                   then Set_from cleaned else cleaned in
                 match filterPattern options with
                 | Some re => filterTest re deduped
                 | None => deduped
                 end
             | None => []
             end in
           ret {| emails := found |}
       | _ => throw (Error (js "htmlContent.match is not a function"))
       end)
    (fun error =>
       consoleError (js "Error extracting emails:") error ;;;
       ret {| emails := [] |}).

Definition isValidEmail (email : JsValue) : bool :=
  if negb (truthy email) || negb (isString email) then false
  else match email with
       | JString s => fst (RegExp_test STRICT_EMAIL_REGEX (trim s))
       | _ => false
       end.

(** The callback of [emails.filter] in [removeDuplicateEmails], with the
    [seen] set it closes over passed along. *)
Fixpoint filterUnseen (seen : JsSet) (xs : list jsstring) : list jsstring :=
  match xs with
  | [] => []
  | email :: t =>
      let normalized := trim (toLowerCase email) in
      if Set_has seen normalized then filterUnseen seen t
      else email :: filterUnseen (Set_add seen normalized) t
  end.

Definition removeDuplicateEmails (emails : JsValue) : list jsstring :=
  match emails with
  | JArray xs => filterUnseen [] xs
  | _ => []
  end.

End WithHost.

(** ** [clipboardUtils.ts] *)

Record ClipboardOptions := { separator : jsstring; includeHeaders : bool }.

(** [Partial<ClipboardOptions>] *)
Record PartialClipboardOptions := {
  separator_opt : option jsstring;
  includeHeaders_opt : option bool
}.

Definition DEFAULT_CLIPBOARD_OPTIONS : ClipboardOptions :=
  {| separator := js ","; includeHeaders := false |}.

(** [{ ...DEFAULT_CLIPBOARD_OPTIONS, ...options }] *)
Definition mergeOptions (d : ClipboardOptions) (o : PartialClipboardOptions)
  : ClipboardOptions :=
  {| separator := match separator_opt o with Some s => s | None => separator d end;
     includeHeaders :=
       match includeHeaders_opt o with Some b => b | None => includeHeaders d end |}.

Definition noOptions : PartialClipboardOptions :=
  {| separator_opt := None; includeHeaders_opt := None |}.

Definition withOptions (sep : jsstring) (headers : bool) : PartialClipboardOptions :=
  {| separator_opt := Some sep; includeHeaders_opt := Some headers |}.

Definition formatEmailsForClipboard (emails : JsValue)
           (options : PartialClipboardOptions) : jsstring :=
  match emails with
  | JArray xs =>
      if (length xs =? 0)%nat then []
      else
        let config := mergeOptions DEFAULT_CLIPBOARD_OPTIONS options in
        let uniqueEmails := Set_from xs in
        let header :=
          if includeHeaders config
          then js "Emails found (" ++ Number_toString (length uniqueEmails)
                  ++ js "):" ++ [LF]
          else [] in
        header ++ join (separator config) uniqueEmails
  | _ => []
  end.

(** What the page gives [copyToClipboard]: whether the asynchronous
    clipboard is there ([navigator.clipboard && window.isSecureContext]),
    whether its [writeText] resolves, and what the [textarea] fallback does:
    the flag of [document.execCommand('copy')], or [None] when a DOM call
    throws. *)
Record Browser := {
  asyncClipboard : bool;
  writeTextResolves : bool;
  execCommandCopy : option bool
}.

Section WithBrowser.
Variable browser : Browser.

Definition copyToClipboardFallback (text : jsstring) : M bool :=
  tryCatch
    (match execCommandCopy browser with
     | Some true => writeClipboard text ;;; ret true
     | Some false => ret false
     | None => throw (Error (js "execCommand failed"))
     end)
    (fun error =>
       consoleError (js "Fallback clipboard copy failed:") error ;;;
       ret false).

Definition copyToClipboard (text : JsValue) : M bool :=
  tryCatch
    (if negb (truthy text) || negb (isString text)
     then throw (Error (js "Invalid text provided for clipboard"))
     else
       match text with
       | JString s =>
           if asyncClipboard browser
           then
             (if writeTextResolves browser
              then writeClipboard s
              else throw (Error (js "writeText rejected"))) ;;;
             ret true
           else copyToClipboardFallback s
       | _ => ret false
       end)
    (fun error =>
       consoleError (js "Error copying to clipboard:") error ;;;
       ret false).

Record CopyResult := { success : bool; message : jsstring }.

Definition plural (count : nat) : jsstring :=
  if (count =? 1)%nat then [] else js "s".

Definition copyEmailsToClipboard (emails : JsValue)
           (options : PartialClipboardOptions) : M CopyResult :=
  tryCatch
    (match emails with
     | JArray xs =>
         if (length xs =? 0)%nat
         then ret {| success := false; message := js "No emails to copy" |}
         else
           let formattedText := formatEmailsForClipboard emails options in
           ok <- copyToClipboard (JString formattedText) ;;
           if ok
           then
             let count := length xs in
             ret {| success := true;
                    message := Number_toString count ++ js " email" ++ plural count
                                 ++ js " copied to clipboard!" |}
           else
             ret {| success := false;
                    message := js "Failed to copy to clipboard. Please try again." |}
     | _ => ret {| success := false; message := js "No emails to copy" |}
     end)
    (fun error =>
       consoleError (js "Error in copyEmailsToClipboard:") error ;;;
       ret {| success := false;
              message := js "An error occurred while copying to clipboard." |}).

End WithBrowser.

(** ** What a pattern matches, declaratively

    [Lang ic r x y]: from state [x] the pattern [r] can consume input and
    reach state [y]. The backtracking matcher is compared with it below. *)

Fixpoint Lang (ic : bool) (r : Regex) (x y : MatchState) : Prop :=
  match r with
  | Empty => y = x
  | Seq r1 r2 => exists z, Lang ic r1 x z /\ Lang ic r2 z y
  | Group r1 => Lang ic r1 x y
  | AssertBegin => endIndex x = O /\ y = x
  | AssertEnd => remaining x = [] /\ y = x
  | Class A =>
      exists ch, remaining x = ch :: remaining y /\ inClass ic A ch = true /\
                 endIndex y = S (endIndex x)
  | AtLeast min A =>
      exists pre, remaining x = pre ++ remaining y /\
                  forallb (inClass ic A) pre = true /\
                  (min <= length pre)%nat /\
                  endIndex y = (endIndex x + length pre)%nat
  end.

(** ** The strict grammar, in the specification's words

    Exactly one [@]; a local part of letters, digits and [. _ % + -]; a
    domain of letters, digits, [.] and [-]; a final label of at least two
    letters. *)

Definition isLocalChar (ch : codeunit) : bool :=
  isAlpha ch || isDigit ch ||
  (ch =? 46) || (ch =? 95) || (ch =? 37) || (ch =? 43) || (ch =? 45).

Definition isDomainChar (ch : codeunit) : bool :=
  isAlpha ch || isDigit ch || (ch =? 46) || (ch =? 45).

Definition strictGrammar (s : jsstring) : Prop :=
  count_occ codeunit_eq_dec s AT = 1%nat /\
  exists local domain,
    s = local ++ AT :: domain /\
    forallb isLocalChar local = true /\
    forallb isDomainChar domain = true /\
    exists labels tld,
      domain = labels ++ DOT :: tld /\
      (2 <= length tld)%nat /\ forallb isAlpha tld = true.

(** The strings [local@domain.tld] with every part present. *)
Definition strictForm (s : jsstring) : Prop :=
  exists local domain tld,
    s = local ++ AT :: domain ++ DOT :: tld /\
    local <> [] /\ forallb isLocalChar local = true /\
    domain <> [] /\ forallb isDomainChar domain = true /\
    (2 <= length tld)%nat /\ forallb isAlpha tld = true.

(** ** Splitting again

    [String.prototype.split] with a string separator, which the round trip
    of the clipboard payload is stated with; the sources never call it. *)

Fixpoint isPrefix (p s : jsstring) : bool :=
  match p, s with
  | [], _ => true
  | a :: p', b :: s' => (a =? b) && isPrefix p' s'
  | _ :: _, [] => false
  end.

(** [String.prototype.includes] *)
Fixpoint occursIn (p s : jsstring) : bool :=
  isPrefix p s ||
  match s with
  | [] => false
  | _ :: t => occursIn p t
  end.

(** Left to right: [cur] is the piece being read, [skip] what is left of a
    separator just found. *)
Fixpoint splitLoop (sep : jsstring) (skip : nat) (cur s : jsstring) : list jsstring :=
  match s with
  | [] => [cur]
  | ch :: t =>
      match skip with
      | S k => splitLoop sep k cur t
      | O =>
          if isPrefix sep s
          then cur :: splitLoop sep (length sep - 1) [] t
          else splitLoop sep 0 (cur ++ [ch]) t
      end
  end.

Definition String_split (s sep : jsstring) : list jsstring :=
  match sep with
  | [] => map (fun ch => [ch]) s
  | _ :: _ => splitLoop sep 0 [] s
  end.

(** ** The rest of [emailUtils.ts] *)

Section Display.
Context {host : Host}.

Definition formatEmailsForDisplay (emails : JsValue) (includeCount : bool) : jsstring :=
  match emails with
  | JArray xs =>
      if (length xs =? 0)%nat then js "No emails found"
      else
        let uniqueEmails := removeDuplicateEmails emails in
        let count := length uniqueEmails in
        if includeCount
        then Number_toString count ++ js " email" ++ plural count ++ js " found:"
               ++ [LF] ++ join [LF] uniqueEmails
        else join [LF] uniqueEmails
  | _ => js "No emails found"
  end.

End Display.

(** ** The first popup script

    The untyped script the extension started from: it removes duplicates
    with [emails.filter(onlyUnique)] and copies the survivors joined by a
    comma. *)

Fixpoint indexOfFrom (v : jsstring) (k : nat) (xs : list jsstring) : option nat :=
  match xs with
  | [] => None
  | x :: t => if jsstring_eqb x v then Some k else indexOfFrom v (S k) t
  end.

(** [Array.prototype.indexOf]; [None] stands for [-1]. *)
Definition Array_indexOf (array : list jsstring) (v : jsstring) : option nat :=
  indexOfFrom v 0 array.

Definition onlyUnique (value : jsstring) (index : nat) (array : list jsstring) : bool :=
  match Array_indexOf array value with
  | Some i => (i =? index)%nat
  | None => false
  end.

Fixpoint filterFrom (cb : jsstring -> nat -> list jsstring -> bool)
         (array : list jsstring) (k : nat) (xs : list jsstring) : list jsstring :=
  match xs with
  | [] => []
  | x :: t =>
      if cb x k array then x :: filterFrom cb array (S k) t
      else filterFrom cb array (S k) t
  end.

(** [Array.prototype.filter], whose callback sees the value, its index and
    the array. *)
Definition Array_filter (cb : jsstring -> nat -> list jsstring -> bool)
           (array : list jsstring) : list jsstring :=
  filterFrom cb array 0 array.

(** The text the first script puts on the clipboard for the matches it
    found. *)
Definition legacyClipboardText (emails : list jsstring) : jsstring :=
  join (js ",") (Array_filter onlyUnique emails).

(** ** Runs over a larger state

    The popup and the injected script keep more than the console and the
    clipboard: a button, timers, counters of the calls made. Their
    computations are of the same kind as [M], over any state. *)

Definition Run (S A : Type) := S -> Completion A * S.

Definition pure {S A} (a : A) : Run S A := fun s => (Normal a, s).
Definition raise {S A} (e : JsError) : Run S A := fun s => (Throw e, s).
Definition andThen {S A B} (m : Run S A) (k : A -> Run S B) : Run S B :=
  fun s => match m s with
           | (Normal a, s') => k a s'
           | (Throw e, s') => (Throw e, s')
           end.
(** [try { body } catch (error) { handler }] *)
Definition attempt {S A} (body : Run S A) (handler : JsError -> Run S A) : Run S A :=
  fun s => match body s with
           | (Normal a, s') => (Normal a, s')
           | (Throw e, s') => handler e s'
           end.
(** [try { body } finally { finalizer }] *)
Definition ensure {S A} (body : Run S A) (finalizer : Run S unit) : Run S A :=
  fun s => match body s with
           | (c, s') =>
               match finalizer s' with
               | (Normal _, s'') => (c, s'')
               | (Throw e, s'') => (Throw e, s'')
               end
           end.
Definition modify {S} (f : S -> S) : Run S unit := fun s => (Normal tt, f s).

Notation "x <~ m ;; k" := (andThen m (fun x => k))
  (at level 61, m at next level, right associativity).
Notation "m ~~> k" := (andThen m (fun _ => k))
  (at level 61, right associativity).

(** ** The browser's extension interface

    What [chrome.*] answers is not the program's to decide: the answer to
    the [n]-th call of each function is given, settled either way. The
    state counts the calls made. *)

Record Tab := { tabId : option N }.

(** [!!tab.id] *)
Definition tabHasId (tab : Tab) : bool :=
  match tabId tab with
  | Some n => negb (n =? 0)
  | None => false
  end.

Record Chrome := {
  tabsQuery : nat -> Completion (list Tab);
  scriptingExecute : nat -> Completion (list JsValue);
  permissionsGetAll : nat -> Completion (option (list jsstring));
  permissionsRequest : nat -> Completion bool;
  runtimeSendMessage : nat -> Completion JsValue
}.

Record Calls := {
  queries : nat;
  executions : nat;
  getAlls : nat;
  requests : nat;
  sends : nat
}.

(** The scrape button's element. *)
Record ButtonElement := {
  disabled : bool;
  textContent : jsstring;
  classList : list jsstring
}.

(** The callbacks handed to [setTimeout]. *)
Inductive Timer := ResetSuccess | ResetError.

(** The popup: console and clipboard, the calls made so far, the
    [ScrapeButton] instance (its element, the display style of the
    clipboard button, its [isScraping] field), the timers set, and the
    messages of the [scrapingError] events dispatched. *)
Record Popup := {
  world : World;
  calls : Calls;
  buttonElement : ButtonElement;
  clipboardDisplay : jsstring;
  isScraping : bool;
  timers : list (nat * Timer);
  events : list jsstring
}.

Definition withWorld (f : World -> World) (p : Popup) : Popup :=
  {| world := f (world p); calls := calls p; buttonElement := buttonElement p;
     clipboardDisplay := clipboardDisplay p; isScraping := isScraping p;
     timers := timers p; events := events p |}.
Definition withCalls (f : Calls -> Calls) (p : Popup) : Popup :=
  {| world := world p; calls := f (calls p); buttonElement := buttonElement p;
     clipboardDisplay := clipboardDisplay p; isScraping := isScraping p;
     timers := timers p; events := events p |}.
Definition withButton (f : ButtonElement -> ButtonElement) (p : Popup) : Popup :=
  {| world := world p; calls := calls p; buttonElement := f (buttonElement p);
     clipboardDisplay := clipboardDisplay p; isScraping := isScraping p;
     timers := timers p; events := events p |}.
Definition withScraping (b : bool) (p : Popup) : Popup :=
  {| world := world p; calls := calls p; buttonElement := buttonElement p;
     clipboardDisplay := clipboardDisplay p; isScraping := b;
     timers := timers p; events := events p |}.
Definition withTimer (delay : nat) (t : Timer) (p : Popup) : Popup :=
  {| world := world p; calls := calls p; buttonElement := buttonElement p;
     clipboardDisplay := clipboardDisplay p; isScraping := isScraping p;
     timers := timers p ++ [(delay, t)]; events := events p |}.
Definition withEvent (msg : jsstring) (p : Popup) : Popup :=
  {| world := world p; calls := calls p; buttonElement := buttonElement p;
     clipboardDisplay := clipboardDisplay p; isScraping := isScraping p;
     timers := timers p; events := events p ++ [msg] |}.

(** [console.error] from the popup. *)
Definition logError (label : jsstring) (e : JsError) : Run Popup unit :=
  modify (withWorld (fun w => {| clipboard := clipboard w;
                                 console := console w ++ [(label, e)] |})).

(** [await] of one call of the interface. *)
Definition callApi {A} (answer : nat -> Completion A) (count : Calls -> nat)
           (bump : Calls -> Calls) : Run Popup A :=
  fun p => (answer (count (calls p)), withCalls bump p).

Definition bumpQueries (c : Calls) : Calls :=
  {| queries := S (queries c); executions := executions c; getAlls := getAlls c;
     requests := requests c; sends := sends c |}.
Definition bumpExecutions (c : Calls) : Calls :=
  {| queries := queries c; executions := S (executions c); getAlls := getAlls c;
     requests := requests c; sends := sends c |}.
Definition bumpGetAlls (c : Calls) : Calls :=
  {| queries := queries c; executions := executions c; getAlls := S (getAlls c);
     requests := requests c; sends := sends c |}.
Definition bumpRequests (c : Calls) : Calls :=
  {| queries := queries c; executions := executions c; getAlls := getAlls c;
     requests := S (requests c); sends := sends c |}.
Definition bumpSends (c : Calls) : Calls :=
  {| queries := queries c; executions := executions c; getAlls := getAlls c;
     requests := requests c; sends := S (sends c) |}.

(** ** [chromeService.ts]: the class [ChromeService] *)

Module ChromeService.
Section WithChrome.
Variable chrome : Chrome.

Definition getActiveTab : Run Popup Tab :=
  attempt
    (tabs <~ callApi (tabsQuery chrome) queries bumpQueries ;;
     match tabs with
     | tab :: _ =>
         if negb (tabHasId tab)
         then raise (Error (js "No active tab found"))
         else pure tab
     | [] => raise (Error (js "No active tab found"))
     end)
    (fun error =>
       logError (js "Error getting active tab:") error ~~>
       raise (Error (js "Failed to get active tab"))).

Definition executeScript : Run Popup (list JsValue) :=
  attempt
    (tab <~ getActiveTab ;;
     if negb (tabHasId tab)
     then raise (Error (js "Tab ID not available"))
     else callApi (scriptingExecute chrome) executions bumpExecutions)
    (fun error =>
       logError (js "Error executing script:") error ~~>
       raise (Error (js "Failed to execute script in tab"))).

Definition sendMessage : Run Popup JsValue :=
  attempt
    (callApi (runtimeSendMessage chrome) sends bumpSends)
    (fun error =>
       logError (js "Error sending message:") error ~~>
       raise (Error (js "Failed to send message to background script"))).

Definition requiredPermissions : list jsstring := [js "activeTab"; js "scripting"].

(** [permissions.permissions?.includes(permission)] *)
Definition includesPermission (granted : option (list jsstring)) (p : jsstring) : bool :=
  match granted with
  | Some ps => existsb (jsstring_eqb p) ps
  | None => false
  end.

Definition checkPermissions : Run Popup bool :=
  attempt
    (permissions <~ callApi (permissionsGetAll chrome) getAlls bumpGetAlls ;;
     pure (forallb (includesPermission permissions) requiredPermissions))
    (fun error =>
       logError (js "Error checking permissions:") error ~~> pure false).

Definition requestPermissions : Run Popup bool :=
  attempt
    (hasPermissions <~ checkPermissions ;;
     if hasPermissions then pure true
     else callApi (permissionsRequest chrome) requests bumpRequests)
    (fun error =>
       logError (js "Error requesting permissions:") error ~~> pure false).

End WithChrome.
End ChromeService.

(** ** [ScrapeButton.ts] *)

(** [classList.add] and [classList.remove] *)
Definition classAdd (c : jsstring) (cs : list jsstring) : list jsstring :=
  if existsb (jsstring_eqb c) cs then cs else cs ++ [c].
Definition classRemove (c : jsstring) (cs : list jsstring) : list jsstring :=
  filter (fun x => negb (jsstring_eqb c x)) cs.

Definition setDisabled (b : bool) (e : ButtonElement) : ButtonElement :=
  {| disabled := b; textContent := textContent e; classList := classList e |}.
Definition setText (t : jsstring) (e : ButtonElement) : ButtonElement :=
  {| disabled := disabled e; textContent := t; classList := classList e |}.
Definition addClass (c : jsstring) (e : ButtonElement) : ButtonElement :=
  {| disabled := disabled e; textContent := textContent e;
     classList := classAdd c (classList e) |}.
Definition removeClass (c : jsstring) (e : ButtonElement) : ButtonElement :=
  {| disabled := disabled e; textContent := textContent e;
     classList := classRemove c (classList e) |}.

(** What a timer does when it fires. *)
Definition fireTimer (t : Timer) (e : ButtonElement) : ButtonElement :=
  match t with
  | ResetSuccess => setText (js "Scrape") (removeClass (js "success") e)
  | ResetError => setText (js "Scrape") (removeClass (js "error") e)
  end.

Module ScrapeButton.
Section WithChrome.
Variable chrome : Chrome.

Definition setScrapingState (scraping : bool) : Run Popup unit :=
  modify (withScraping scraping) ~~>
  if scraping
  then modify (withButton (fun e =>
         addClass (js "scraping") (setText (js "Scraping...") (setDisabled true e))))
  else modify (withButton (fun e =>
         removeClass (js "scraping") (setText (js "Scrape") (setDisabled false e)))).

Definition showSuccessState : Run Popup unit :=
  modify (withButton (fun e => setText (js "Success!") (addClass (js "success") e))) ~~>
  modify (withTimer 2000 ResetSuccess).

Definition handleScrapingError (error : JsError) : Run Popup unit :=
  modify (withButton (fun e => setText (js "Error!") (addClass (js "error") e))) ~~>
  modify (withEvent (match error with Error message => message end)) ~~>
  modify (withTimer 3000 ResetError).

Definition performEmailScraping : Run Popup unit :=
  attempt
    (hasPermissions <~ ChromeService.checkPermissions chrome ;;
     (if negb hasPermissions
      then
        granted <~ ChromeService.requestPermissions chrome ;;
        if negb granted
        then raise (Error (js "Required permissions not granted"))
        else pure tt
      else pure tt) ~~>
     (_ <~ ChromeService.executeScript chrome ;;
      showSuccessState))
    (fun error =>
       logError (js "Error in performEmailScraping:") error ~~> raise error).

Definition handleScrapeClick : Run Popup unit :=
  ensure
    (attempt
       (fun p =>
          if isScraping p then pure tt p
          else (setScrapingState true ~~> performEmailScraping) p)
       (fun error =>
          logError (js "Error during email scraping:") error ~~>
          handleScrapingError error))
    (setScrapingState false).

End WithChrome.
End ScrapeButton.

(** ** [chromeService.ts]: the injected [scrapeEmailsFromPage]

    It runs in the page: it reads [document.body.innerHTML], which throws
    when the document has no body, and posts its result with
    [chrome.runtime.sendMessage], which throws when the extension is gone.
    The function calls [sendMessage] in two places, and each call has an
    outcome of its own: the document tells, for the [n]-th call, whether it
    goes through. The state is the page's console, the messages posted and
    the number of calls of [sendMessage] made. *)

Record Document := {
  bodyInnerHTML : option jsstring;
  runtimeConnected : nat -> bool
}.

Record Page := {
  pageWorld : World;
  outbox : list (list jsstring);
  sendCalls : nat
}.

Definition liftPage {A} (m : M A) : Run Page A :=
  fun p => match m (pageWorld p) with
           | (c, w) => (c, {| pageWorld := w; outbox := outbox p;
                              sendCalls := sendCalls p |})
           end.

Section InPage.
Context {host : Host}.
Variable document : Document.

(** [chrome.runtime.sendMessage({ emails })], not awaited. *)
Definition postEmails (found : list jsstring) : Run Page unit :=
  fun p =>
    if runtimeConnected document (sendCalls p)
    then (Normal tt, {| pageWorld := pageWorld p; outbox := outbox p ++ [found];
                        sendCalls := S (sendCalls p) |})
    else (Throw (Error (js "Extension context invalidated.")),
          {| pageWorld := pageWorld p; outbox := outbox p;
             sendCalls := S (sendCalls p) |}).

Definition scrapeEmailsFromPage : Run Page EmailScrapingResult :=
  attempt
    (pageContent <~
       match bodyInnerHTML document with
       | Some html => pure html
       | None => raise (Error (js "Cannot read properties of null"))
       end ;;
     result <~ liftPage (extractEmailsFromHTML (JString pageContent)
                           {| includeDuplicates := false; filterPattern := None |}) ;;
     postEmails (emails result) ~~>
     pure result)
    (fun error =>
       liftPage (consoleError (js "Error scraping emails from page:") error) ~~>
       postEmails [] ~~>
       pure {| emails := [] |}).

End InPage.

(** ** Auxiliary notions for the proofs *)

(** The classes a pattern mentions. *)
Fixpoint classesOf (r : Regex) : list CharClass :=
  match r with
  | Empty | AssertBegin | AssertEnd => []
  | Seq r1 r2 => classesOf r1 ++ classesOf r2
  | Group r1 => classesOf r1
  | Class A => [A]
  | AtLeast _ A => [A]
  end.

(** The first occurrences in [xs] of what is not in [seen]. *)
Fixpoint firstsFrom (seen : list jsstring) (xs : list jsstring) : list jsstring :=
  match xs with
  | [] => []
  | x :: t =>
      if Set_has seen x then firstsFrom seen t
      else x :: firstsFrom (seen ++ [x]) t
  end.

(** The key [removeDuplicateEmails] compares by. *)
Definition dedupeKey {host : Host} (email : jsstring) : jsstring :=
  trim (toLowerCase email).

(** A world to start runs from. *)
Definition emptyWorld : World := {| clipboard := []; console := [] |}.

(** An interface that grants everything, and a popup at rest. *)
Definition readyChrome : Chrome :=
  {| tabsQuery := fun _ => Normal [{| tabId := Some 7 |}];
     scriptingExecute := fun _ => Normal [JUndefined];
     permissionsGetAll := fun _ => Normal (Some [js "activeTab"; js "scripting"]);
     permissionsRequest := fun _ => Normal true;
     runtimeSendMessage := fun _ => Normal JUndefined |}.

Definition idlePopup : Popup :=
  {| world := emptyWorld;
     calls := {| queries := 0; executions := 0; getAlls := 0; requests := 0; sends := 0 |};
     buttonElement := {| disabled := false; textContent := js "Scrape"; classList := [] |};
     clipboardDisplay := js "none";
     isScraping := false;
     timers := [];
     events := [] |}.

(** Deduplication in the specification's words: an entry stays, in its
    place and as written, and every later entry that compares equal to it
    (by [dedupeKey]) goes. *)
Fixpoint firstByKey {host : Host} (xs : list jsstring) : list jsstring :=
  match xs with
  | [] => []
  | x :: t =>
      x :: filter (fun y => negb (jsstring_eqb (dedupeKey y) (dedupeKey x)))
                  (firstByKey t)
  end.

(** ASCII and not an upper-case letter. *)
Definition isLowerAscii (ch : codeunit) : bool := isAscii ch && negb (isUpper ch).

(** * Properties *)

(** ** A host *)

Lemma latin1Lower_ascii (s : jsstring) :
  forallb isAscii s = true -> map latin1Lower s = map asciiLower s.
Proof.
  intros H. apply map_ext_in. intros ch Hin.
  rewrite forallb_forall in H. specialize (H ch Hin).
  unfold latin1Lower, asciiLower, isAscii, isUpper, between in *.
  destruct (65 <=? ch) eqn:E1, (ch <=? 90) eqn:E2; simpl; try reflexivity;
    destruct (192 <=? ch) eqn:E3; simpl; try reflexivity;
    apply N.leb_le in E3; apply N.ltb_lt in H; lia.
Qed.

#[export] Instance latin1Host : Host :=
  {| toLowerCase := map latin1Lower; toLowerCase_ascii := latin1Lower_ascii |}.

(** ** Strings and sets *)

Lemma jsstring_eqb_eq (a b : jsstring) : jsstring_eqb a b = true <-> a = b.
Proof.
  unfold jsstring_eqb. destruct (jsstring_eq_dec a b); split; congruence.
Qed.

Lemma Set_has_In (s : JsSet) (x : jsstring) : Set_has s x = true <-> In x s.
Proof.
  unfold Set_has. rewrite existsb_exists. split.
  - intros [y [Hy E]]. apply jsstring_eqb_eq in E. now subst.
  - intros H. exists x. split; [assumption | now apply jsstring_eqb_eq].
Qed.

Lemma Set_has_false (s : JsSet) (x : jsstring) : Set_has s x = false <-> ~ In x s.
Proof.
  rewrite <- Set_has_In. destruct (Set_has s x); split; congruence.
Qed.

Lemma Set_add_In (s : JsSet) (x y : jsstring) :
  In y (Set_add s x) <-> In y s \/ y = x.
Proof.
  unfold Set_add. destruct (Set_has s x) eqn:E.
  - apply Set_has_In in E. split; [now left | intros [H | ->]; assumption].
  - rewrite in_app_iff. simpl. intuition congruence.
Qed.

Lemma Set_add_NoDup (s : JsSet) (x : jsstring) : NoDup s -> NoDup (Set_add s x).
Proof.
  intros H. unfold Set_add. destruct (Set_has s x) eqn:E; [assumption |].
  apply Set_has_false in E.
  apply NoDup_rev in H. rewrite <- (rev_involutive (s ++ [x])).
  apply NoDup_rev. rewrite rev_app_distr. simpl. constructor; [| assumption].
  now rewrite <- in_rev.
Qed.

Lemma fold_Set_add_In (xs : list jsstring) (acc : JsSet) (y : jsstring) :
  In y (fold_left Set_add xs acc) <-> In y acc \/ In y xs.
Proof.
  revert acc. induction xs as [| x t IH]; intros acc; simpl.
  - tauto.
  - rewrite IH, Set_add_In. intuition congruence.
Qed.

Lemma fold_Set_add_NoDup (xs : list jsstring) (acc : JsSet) :
  NoDup acc -> NoDup (fold_left Set_add xs acc).
Proof.
  revert acc. induction xs as [| x t IH]; intros acc H; simpl;
    [assumption | apply IH, Set_add_NoDup, H].
Qed.

Lemma Set_from_In (xs : list jsstring) (y : jsstring) :
  In y (Set_from xs) <-> In y xs.
Proof. unfold Set_from. rewrite fold_Set_add_In. simpl. tauto. Qed.

Lemma Set_from_NoDup (xs : list jsstring) : NoDup (Set_from xs).
Proof. apply fold_Set_add_NoDup. constructor. Qed.

Lemma Set_from_length (xs : list jsstring) :
  (length (Set_from xs) <= length xs)%nat.
Proof.
  apply NoDup_incl_length; [apply Set_from_NoDup |].
  intros y. apply Set_from_In.
Qed.

Lemma Set_from_shorter (xs : list jsstring) :
  ~ NoDup xs -> (length (Set_from xs) < length xs)%nat.
Proof.
  intros Hdup. pose proof (Set_from_length xs) as Hle.
  destruct (Nat.eq_dec (length (Set_from xs)) (length xs)) as [E | E]; [| lia].
  exfalso. apply Hdup.
  apply NoDup_incl_NoDup with (l := Set_from xs).
  - apply Set_from_NoDup.
  - lia.
  - intros y. apply Set_from_In.
Qed.

Lemma Set_from_nonempty (xs : list jsstring) : xs <> [] -> Set_from xs <> [].
Proof.
  destruct xs as [| x t]; [congruence |]. intros _ E.
  assert (H : In x (Set_from (x :: t))) by (apply Set_from_In; now left).
  rewrite E in H. destruct H.
Qed.

(** A list without repetitions is its own set, in its own order. *)
Lemma fold_Set_add_fresh (xs : list jsstring) (acc : JsSet) :
  NoDup (acc ++ xs) -> fold_left Set_add xs acc = acc ++ xs.
Proof.
  revert acc. induction xs as [| x t IH]; intros acc H; simpl.
  - now rewrite app_nil_r.
  - assert (Hx : Set_has acc x = false).
    { apply Set_has_false. intros Hin.
      apply NoDup_remove_2 in H. apply H. apply in_or_app. now left. }
    unfold Set_add at 2. rewrite Hx.
    rewrite IH; rewrite <- app_assoc; simpl; [reflexivity | assumption].
Qed.

Lemma Set_from_NoDup_id (xs : list jsstring) : NoDup xs -> Set_from xs = xs.
Proof. intros H. unfold Set_from. now rewrite fold_Set_add_fresh. Qed.

(** ** The backtracking matcher against the declarative semantics *)

Section MatcherCorrect.
Variable ic : bool.

Lemma RepeatMatcher_sound (p : codeunit -> bool) (c : Continuation) (s : jsstring) :
  forall min i z,
    RepeatMatcher p min c i s = Some z ->
    exists pre post,
      s = pre ++ post /\ forallb p pre = true /\ (min <= length pre)%nat /\
      c {| endIndex := i + length pre; remaining := post |} = Some z.
Proof.
  induction s as [| ch t IH]; intros min i z H; simpl in H.
  - destruct min; [| discriminate].
    exists [], []. simpl. rewrite Nat.add_0_r. auto.
  - assert (Hstop : match min with
                    | O => c {| endIndex := i; remaining := ch :: t |}
                    | S _ => None
                    end = Some z ->
                    exists pre post,
                      ch :: t = pre ++ post /\ forallb p pre = true /\
                      (min <= length pre)%nat /\
                      c {| endIndex := i + length pre; remaining := post |} = Some z).
    { intros Hs. destruct min; [| discriminate].
      exists [], (ch :: t). simpl. rewrite Nat.add_0_r. auto. }
    destruct (p ch) eqn:Hp; [| auto].
    destruct (RepeatMatcher p (pred min) c (S i) t) as [y |] eqn:Hrec; [| auto].
    injection H as ->.
    destruct (IH _ _ _ Hrec) as (pre & post & -> & Hall & Hmin & Hc).
    exists (ch :: pre), post. simpl. rewrite Hp, Hall.
    replace (i + S (length pre))%nat with (S i + length pre)%nat by lia.
    repeat split; [lia | assumption].
Qed.

Lemma RepeatMatcher_complete (p : codeunit -> bool) (c : Continuation)
      (pre post : jsstring) :
  forall min i,
    forallb p pre = true -> (min <= length pre)%nat ->
    c {| endIndex := i + length pre; remaining := post |} <> None ->
    RepeatMatcher p min c i (pre ++ post) <> None.
Proof.
  induction pre as [| ch pre IH]; intros min i Hall Hmin Hc; simpl in *.
  - assert (min = O) by lia. subst min. rewrite Nat.add_0_r in Hc.
    destruct post as [| ch t]; simpl; [assumption |].
    destruct (p ch); [| assumption].
    destruct (RepeatMatcher p 0 c (S i) t); [discriminate | assumption].
  - apply andb_prop in Hall as [Hp Hall]. rewrite Hp.
    assert (Hrec : RepeatMatcher p (pred min) c (S i) (pre ++ post) <> None).
    { apply IH; [assumption | lia |].
      now replace (S i + length pre)%nat with (i + S (length pre))%nat by lia. }
    destruct (RepeatMatcher p (pred min) c (S i) (pre ++ post));
      [discriminate | contradiction].
Qed.

(** Whatever the matcher returns, the continuation returned it at a state
    the pattern reaches. *)
Lemma matcher_sound (r : Regex) :
  forall x c z,
    matcher ic r x c = Some z -> exists y, Lang ic r x y /\ c y = Some z.
Proof.
  induction r as [| r1 IH1 r2 IH2 | r1 IH1 | | | A | min A]; intros x c z H; simpl in *.
  - eauto.
  - destruct (IH1 _ _ _ H) as (y1 & L1 & H1).
    destruct (IH2 _ _ _ H1) as (y2 & L2 & H2). eauto.
  - eauto.
  - destruct (endIndex x) eqn:E; [eauto | discriminate].
  - destruct (remaining x) eqn:E; [eauto | discriminate].
  - destruct (remaining x) as [| ch t] eqn:E; [discriminate |].
    destruct (inClass ic A ch) eqn:Hin; [| discriminate].
    eexists. split; [| exact H]. exists ch. simpl. auto.
  - destruct (RepeatMatcher_sound _ _ _ _ _ H) as (pre & post & E & Hall & Hmin & Hc).
    eexists. split; [| exact Hc]. exists pre. simpl. auto.
Qed.

(** If the pattern reaches a state the continuation accepts, the matcher
    succeeds (at that state or at one it tries earlier). *)
Lemma matcher_complete (r : Regex) :
  forall x y c,
    Lang ic r x y -> c y <> None -> matcher ic r x c <> None.
Proof.
  induction r as [| r1 IH1 r2 IH2 | r1 IH1 | | | A | min A]; intros x y c L Hc; simpl in *.
  - now subst.
  - destruct L as (z & L1 & L2). eapply IH1; [exact L1 |]. eapply IH2; eassumption.
  - eauto.
  - destruct L as [E ->]. now rewrite E.
  - destruct L as [E ->]. now rewrite E.
  - destruct L as (ch & E & Hin & Hi). rewrite E, Hin.
    destruct y as [yi yr]. simpl in *. now subst.
  - destruct L as (pre & E & Hall & Hmin & Hi). rewrite E.
    apply RepeatMatcher_complete; [assumption | assumption |].
    destruct y as [yi yr]. simpl in *. now subst.
Qed.

(** A match consumes a prefix of the remaining input and counts it. *)
Lemma Lang_consumes (r : Regex) :
  forall x y,
    Lang ic r x y ->
    exists pre, remaining x = pre ++ remaining y /\
                endIndex y = (endIndex x + length pre)%nat.
Proof.
  induction r as [| r1 IH1 r2 IH2 | r1 IH1 | | | A | min A]; intros x y L; simpl in *.
  - subst. exists []. simpl. auto.
  - destruct L as (z & L1 & L2).
    destruct (IH1 _ _ L1) as (p1 & E1 & I1). destruct (IH2 _ _ L2) as (p2 & E2 & I2).
    exists (p1 ++ p2). rewrite E1, E2, I2, I1, length_app, <- app_assoc.
    split; [reflexivity | lia].
  - auto.
  - destruct L as [_ ->]. exists []. simpl. auto.
  - destruct L as [_ ->]. exists []. simpl. auto.
  - destruct L as (ch & E & _ & Hi). exists [ch]. simpl. split; [assumption | lia].
  - destruct L as (pre & E & _ & _ & Hi). exists pre. auto.
Qed.

End MatcherCorrect.

(** ** The search loop and the fuel of [match] *)

Lemma matcher_consumes (ic : bool) (r : Regex) (i : nat) (s : jsstring) (y : MatchState) :
  matcher ic r {| endIndex := i; remaining := s |} (fun y => Some y) = Some y ->
  exists pre, s = pre ++ remaining y /\ endIndex y = (i + length pre)%nat.
Proof.
  intros H. destruct (matcher_sound _ _ _ _ H) as (y' & L & Ey).
  injection Ey as ->. apply (Lang_consumes _ _ _ _ L).
Qed.

Lemma search_bounds (ic : bool) (r : Regex) (s : jsstring) :
  forall i m,
    search ic r i s = Some m ->
    (i <= index m /\
     endIndex (after m) = index m + length (matched m) /\
     endIndex (after m) <= i + length s)%nat.
Proof.
  assert (Hhit : forall i s y,
             matcher ic r {| endIndex := i; remaining := s |} (fun y => Some y) = Some y ->
             (i <= i /\ endIndex y = i + length (firstn (endIndex y - i) s) /\
              endIndex y <= i + length s)%nat).
  { intros i s0 y Hm. destruct (matcher_consumes _ _ _ _ Hm) as (pre & -> & Hi).
    rewrite Hi.
    replace (i + length pre - i)%nat with (length pre + 0)%nat by lia.
    rewrite firstn_app_2. simpl. rewrite app_nil_r, length_app. lia. }
  induction s as [| ch t IH]; intros i m H; simpl in H;
    destruct (matcher ic r _ _) as [y |] eqn:Hm.
  - injection H as <-. simpl. now apply Hhit.
  - discriminate.
  - injection H as <-. simpl. now apply Hhit.
  - destruct (IH _ _ H) as (H1 & H2 & H3). simpl. lia.
Qed.

Lemma exec_past_end (re : RegExp) (input : jsstring) :
  global re = true -> (length input < lastIndex re)%nat ->
  fst (RegExpBuiltinExec re input) = None.
Proof.
  intros G H. unfold RegExpBuiltinExec. rewrite G.
  apply Nat.ltb_lt in H. now rewrite H.
Qed.

Lemma exec_advances (re re' : RegExp) (input : jsstring) (m : Match) :
  global re = true ->
  RegExpBuiltinExec re input = (Some m, re') ->
  global re' = true /\
  (lastIndex re + length (matched m) <= lastIndex re')%nat.
Proof.
  intros G H. unfold RegExpBuiltinExec in H. rewrite G in H.
  destruct (length input <? lastIndex re)%nat; [discriminate |].
  destruct (search _ _ _ _) as [m' |] eqn:Hs; [| discriminate].
  injection H as -> <-. simpl. split; [assumption |].
  apply search_bounds in Hs. lia.
Qed.

(** Once the fuel exceeds what is left of the input, more fuel changes
    nothing: the loop of [match] ends by itself. *)
Lemma matchLoop_fuel (input : jsstring) :
  forall fuel1 fuel2 re,
    global re = true ->
    (length input + 1 - lastIndex re < fuel1)%nat ->
    (length input + 1 - lastIndex re < fuel2)%nat ->
    matchLoop fuel1 re input = matchLoop fuel2 re input.
Proof.
  induction fuel1 as [| f1 IH]; intros fuel2 re G H1 H2; [lia |].
  destruct fuel2 as [| f2]; [lia |]. simpl.
  destruct (RegExpBuiltinExec re input) as [[m |] re'] eqn:E; [| reflexivity].
  destruct (Nat.lt_ge_cases (length input) (lastIndex re)) as [Hpast | Hin].
  { pose proof (exec_past_end re input G Hpast) as N. rewrite E in N. discriminate. }
  destruct (exec_advances _ _ G E) as [G' Hadv].
  f_equal. apply IH.
  - destruct (matched m); assumption.
  - destruct (matched m); simpl in *; lia.
  - destruct (matched m); simpl in *; lia.
Qed.

Lemma String_match_fuel (input : jsstring) (re : RegExp) (fuel : nat) :
  global re = true -> (length input + 2 <= fuel)%nat ->
  matchLoop fuel (setLastIndex re 0) input =
  matchLoop (length input + 2) (setLastIndex re 0) input.
Proof.
  intros G H. apply matchLoop_fuel; simpl; [assumption | lia | lia].
Qed.

(** ** The classes of the strict pattern are the specification's classes *)

Lemma rangeUnits_In (r : ClassRange) (a : codeunit) :
  In a (rangeUnits r) <-> fst r <= a /\ a <= snd r.
Proof.
  unfold rangeUnits. rewrite in_map_iff. split.
  - intros (n & <- & Hn). apply in_seq in Hn. lia.
  - intros [H1 H2]. exists (N.to_nat a). rewrite N2Nat.id, in_seq. lia.
Qed.

Lemma inClass_ranges (A : CharClass) (ch : codeunit) :
  inClass false A ch = existsb (fun r => between (fst r) (snd r) ch) A.
Proof.
  unfold inClass, classUnits, Canonicalize. simpl.
  apply eq_true_iff_eq. rewrite !existsb_exists. split.
  - intros (a & Ha & E). apply N.eqb_eq in E. subst a.
    apply in_flat_map in Ha as (r & Hr & Ha). exists r. split; [assumption |].
    apply rangeUnits_In in Ha. unfold between.
    apply andb_true_intro. split; apply N.leb_le; tauto.
  - intros (r & Hr & Hb). unfold between in Hb. apply andb_prop in Hb as [H1 H2].
    apply N.leb_le in H1, H2. exists ch. split; [| apply N.eqb_refl].
    apply in_flat_map. exists r. split; [assumption |]. now apply rangeUnits_In.
Qed.

Lemma between_single (a ch : codeunit) : between a a ch = (ch =? a).
Proof.
  unfold between. destruct (N.eqb_spec ch a) as [-> | Hne].
  - now rewrite N.leb_refl.
  - destruct (a <=? ch) eqn:E1, (ch <=? a) eqn:E2; try reflexivity.
    apply N.leb_le in E1, E2. lia.
Qed.

Lemma inClass_local (ch : codeunit) : inClass false localClass ch = isLocalChar ch.
Proof.
  rewrite inClass_ranges. unfold localClass, isLocalChar, isAlpha, isDigit, isUpper, isLower.
  simpl. rewrite !between_single.
  destruct (between 97 122 ch), (between 65 90 ch), (between 48 57 ch),
    (ch =? 46), (ch =? 95), (ch =? 37), (ch =? 43), (ch =? 45); reflexivity.
Qed.

Lemma inClass_domain (ch : codeunit) : inClass false domainClass ch = isDomainChar ch.
Proof.
  rewrite inClass_ranges. unfold domainClass, isDomainChar, isAlpha, isDigit, isUpper, isLower.
  simpl. rewrite !between_single.
  destruct (between 97 122 ch), (between 65 90 ch), (between 48 57 ch),
    (ch =? 46), (ch =? 45); reflexivity.
Qed.

Lemma inClass_letters (ch : codeunit) : inClass false letters ch = isAlpha ch.
Proof.
  rewrite inClass_ranges. unfold letters, isAlpha, isUpper, isLower. simpl.
  destruct (between 97 122 ch), (between 65 90 ch); reflexivity.
Qed.

Lemma inClass_char (a ch : codeunit) : inClass false [(a, a)] ch = true <-> ch = a.
Proof.
  rewrite inClass_ranges. simpl. rewrite between_single, orb_false_r. apply N.eqb_eq.
Qed.

Lemma forallb_ext_eq {A} (f g : A -> bool) (l : list A) :
  (forall a, f a = g a) -> forallb f l = forallb g l.
Proof. intros H. induction l as [| a l IH]; simpl; [reflexivity | now rewrite H, IH]. Qed.

(** ** What the strict pattern accepts *)

Lemma Lang_emailPattern (x y : MatchState) :
  Lang false emailPattern x y <->
  exists local domain tld,
    remaining x = local ++ AT :: domain ++ DOT :: tld ++ remaining y /\
    local <> [] /\ forallb isLocalChar local = true /\
    domain <> [] /\ forallb isDomainChar domain = true /\
    (2 <= length tld)%nat /\ forallb isAlpha tld = true /\
    endIndex y = (endIndex x + length local + 1 + length domain + 1 + length tld)%nat.
Proof.
  unfold emailPattern, Char. simpl. split.
  - intros (z1 & (l & E1 & A1 & M1 & I1) & z2 & (c2 & E2 & A2 & I2) &
            z3 & (d & E3 & A3 & M3 & I3) & z4 & (c4 & E4 & A4 & I4) &
            t & E5 & A5 & M5 & I5).
    apply inClass_char in A2, A4. subst c2 c4.
    exists l, d, t.
    rewrite (forallb_ext_eq _ _ _ inClass_local) in A1.
    rewrite (forallb_ext_eq _ _ _ inClass_domain) in A3.
    rewrite (forallb_ext_eq _ _ _ inClass_letters) in A5.
    repeat split; try assumption.
    + rewrite E1, E2, E3, E4, E5. reflexivity.
    + intros ->. simpl in M1. lia.
    + intros ->. simpl in M3. lia.
    + lia.
  - intros (l & d & t & E & Nl & Al & Nd & Ad & Mt & At & I).
    assert (Ll : (1 <= length l)%nat) by (destruct l; [congruence | simpl; lia]).
    assert (Ld : (1 <= length d)%nat) by (destruct d; [congruence | simpl; lia]).
    rewrite <- (forallb_ext_eq _ _ _ inClass_local) in Al.
    rewrite <- (forallb_ext_eq _ _ _ inClass_domain) in Ad.
    rewrite <- (forallb_ext_eq _ _ _ inClass_letters) in At.
    exists {| endIndex := endIndex x + length l;
              remaining := AT :: d ++ DOT :: t ++ remaining y |}.
    split; [exists l; simpl; auto |].
    exists {| endIndex := S (endIndex x + length l);
              remaining := d ++ DOT :: t ++ remaining y |}.
    split; [exists AT; simpl; repeat split; now apply inClass_char |].
    exists {| endIndex := S (endIndex x + length l) + length d;
              remaining := DOT :: t ++ remaining y |}.
    split; [exists d; simpl; auto |].
    exists {| endIndex := S (S (endIndex x + length l) + length d);
              remaining := t ++ remaining y |}.
    split; [exists DOT; simpl; repeat split; now apply inClass_char |].
    exists t. simpl. repeat split; try assumption. lia.
Qed.

Lemma search_anchored_late (ic : bool) (r : Regex) (s : jsstring) :
  forall i, search ic (Seq AssertBegin r) (S i) s = None.
Proof.
  induction s as [| ch t IH]; intros i; simpl; [reflexivity | apply IH].
Qed.

Lemma test_anchored (ic g : bool) (r : Regex) (li : nat) (s : jsstring) :
  g = false ->
  fst (RegExp_test {| source := Seq AssertBegin r; ignoreCase := ic;
                      global := g; lastIndex := li |} s) = true <->
  exists y, Lang ic (Seq AssertBegin r) {| endIndex := 0; remaining := s |} y.
Proof.
  intros ->. unfold RegExp_test, RegExpBuiltinExec. simpl global. cbv iota.
  simpl source. simpl ignoreCase.
  replace (length s <? 0)%nat with false by (symmetry; apply Nat.ltb_ge; lia).
  simpl skipn.
  set (x := {| endIndex := 0; remaining := s |}).
  assert (Hs : search ic (Seq AssertBegin r) 0 s =
               match matcher ic (Seq AssertBegin r) x (fun y => Some y) with
               | Some y => Some {| index := 0; matched := firstn (endIndex y - 0) s;
                                   after := y |}
               | None => None
               end).
  { destruct s as [| ch t]; simpl; fold x;
      destruct (matcher ic r x _); try reflexivity.
    apply search_anchored_late. }
  rewrite Hs. clear Hs.
  destruct (matcher ic (Seq AssertBegin r) x (fun y => Some y)) as [y |] eqn:Hm; simpl.
  - split; [intros _ | reflexivity].
    destruct (matcher_sound _ _ _ _ Hm) as (y' & L & _). now exists y'.
  - split; [discriminate |]. intros (y & L).
    exfalso.
    apply (matcher_complete ic (Seq AssertBegin r) x y (fun y => Some y) L);
      [discriminate | assumption].
Qed.

(** The strict pattern accepts exactly the strings [local@domain.tld]. *)
Lemma STRICT_EMAIL_REGEX_accepts (s : jsstring) :
  fst (RegExp_test STRICT_EMAIL_REGEX s) = true <-> strictForm s.
Proof.
  unfold STRICT_EMAIL_REGEX. rewrite test_anchored by reflexivity.
  unfold strictForm. split.
  - intros (y & z1 & (_ & ->) & z2 & L & (E & ->)).
    apply Lang_emailPattern in L as (l & d & t & Es & H).
    simpl in Es. rewrite E, app_nil_r in Es.
    exists l, d, t. tauto.
  - intros (l & d & t & -> & Nl & Al & Nd & Ad & Mt & At).
    set (n := (length l + 1 + length d + 1 + length t)%nat).
    exists {| endIndex := n; remaining := [] |}.
    exists {| endIndex := 0; remaining := l ++ AT :: d ++ DOT :: t |}.
    split; [simpl; auto |].
    exists {| endIndex := n; remaining := [] |}.
    split; [| simpl; auto].
    apply Lang_emailPattern. exists l, d, t. simpl. rewrite app_nil_r.
    repeat split; assumption.
Qed.

(** ** Character facts *)

Ltac unbool :=
  repeat match goal with
         | H : _ || _ = true |- _ => apply orb_prop in H; destruct H
         | H : _ && _ = true |- _ => apply andb_prop in H; destruct H
         | H : _ || _ = false |- _ => apply orb_false_elim in H; destruct H
         | H : _ && _ = false |- _ => apply andb_false_iff in H; destruct H
         | H : (_ =? _) = true |- _ => apply N.eqb_eq in H
         | H : (_ =? _) = false |- _ => apply N.eqb_neq in H
         | H : (_ <=? _) = true |- _ => apply N.leb_le in H
         | H : (_ <=? _) = false |- _ => apply N.leb_gt in H
         end.

Ltac chars :=
  unfold isLocalChar, isDomainChar, isAlpha, isDigit, isUpper, isLower,
    isWhiteSpace, between, AT, DOT in *.

Lemma isLocalChar_not_ws (ch : codeunit) :
  isLocalChar ch = true -> isWhiteSpace ch = false.
Proof.
  intros H. destruct (isWhiteSpace ch) eqn:W; [exfalso | reflexivity].
  chars. unbool; lia.
Qed.

Lemma isAlpha_not_ws (ch : codeunit) : isAlpha ch = true -> isWhiteSpace ch = false.
Proof.
  intros H. apply isLocalChar_not_ws. unfold isLocalChar. now rewrite H.
Qed.

Lemma isLocalChar_not_AT (ch : codeunit) : isLocalChar ch = true -> ch <> AT.
Proof. intros H E. chars. subst ch. vm_compute in H. discriminate. Qed.

Lemma isDomainChar_local (ch : codeunit) : isDomainChar ch = true -> isLocalChar ch = true.
Proof.
  unfold isDomainChar, isLocalChar. intros H.
  destruct (isAlpha ch), (isDigit ch), (ch =? 46), (ch =? 45); simpl in *;
    try discriminate; try reflexivity; now rewrite ?orb_true_r.
Qed.

Lemma isAlpha_domain (ch : codeunit) : isAlpha ch = true -> isDomainChar ch = true.
Proof. unfold isDomainChar. now intros ->. Qed.

Lemma isAlpha_not_DOT (ch : codeunit) : isAlpha ch = true -> ch <> DOT.
Proof. intros H E. chars. subst ch. vm_compute in H. discriminate. Qed.

Lemma asciiLower_upper (ch : codeunit) :
  isUpper ch = true -> isLower (asciiLower ch) = true /\ isUpper (asciiLower ch) = false.
Proof.
  intros H. unfold asciiLower. rewrite H. chars. unbool.
  split; [apply andb_true_intro; split; apply N.leb_le; lia |].
  apply andb_false_iff. right. apply N.leb_gt. lia.
Qed.

Lemma asciiLower_other (ch : codeunit) : isUpper ch = false -> asciiLower ch = ch.
Proof. intros H. unfold asciiLower. now rewrite H. Qed.

Lemma asciiLower_alpha (ch : codeunit) : isAlpha (asciiLower ch) = isAlpha ch.
Proof.
  destruct (isUpper ch) eqn:U.
  - destruct (asciiLower_upper _ U) as [L _]. unfold isAlpha. now rewrite L, U, orb_true_r.
  - now rewrite asciiLower_other.
Qed.

Lemma asciiLower_fixes (ch : codeunit) : isAlpha ch = false -> asciiLower ch = ch.
Proof.
  intros H. apply asciiLower_other. unfold isAlpha in H.
  now apply orb_false_elim in H.
Qed.

Lemma asciiLower_local (ch : codeunit) : isLocalChar (asciiLower ch) = isLocalChar ch.
Proof.
  destruct (isAlpha ch) eqn:A.
  - unfold isLocalChar. now rewrite asciiLower_alpha, A.
  - now rewrite asciiLower_fixes.
Qed.

Lemma asciiLower_domain (ch : codeunit) : isDomainChar (asciiLower ch) = isDomainChar ch.
Proof.
  destruct (isAlpha ch) eqn:A.
  - unfold isDomainChar. now rewrite asciiLower_alpha, A.
  - now rewrite asciiLower_fixes.
Qed.

Lemma asciiLower_ws (ch : codeunit) : isWhiteSpace (asciiLower ch) = isWhiteSpace ch.
Proof.
  destruct (isAlpha ch) eqn:A.
  - rewrite (isAlpha_not_ws _ A). apply isAlpha_not_ws. now rewrite asciiLower_alpha.
  - now rewrite asciiLower_fixes.
Qed.

Lemma asciiLower_eq (ch a : codeunit) :
  isAlpha a = false -> asciiLower ch = a -> ch = a.
Proof.
  intros Ha E. destruct (isAlpha ch) eqn:A.
  - rewrite <- asciiLower_alpha, E in A. congruence.
  - now rewrite asciiLower_fixes in E.
Qed.

(** ** [trim] *)

Lemma trimStart_keeps (ch : codeunit) (s : jsstring) :
  isWhiteSpace ch = false -> trimStart (ch :: s) = ch :: s.
Proof. intros H. simpl. now rewrite H. Qed.

Lemma trimEnd_keeps (ch : codeunit) (s : jsstring) :
  isWhiteSpace ch = false -> trimEnd (s ++ [ch]) = s ++ [ch].
Proof.
  intros H. unfold trimEnd. rewrite rev_app_distr. simpl. rewrite H.
  simpl. now rewrite rev_involutive.
Qed.

Lemma trimStart_map (f : codeunit -> codeunit) (s : jsstring) :
  (forall ch, isWhiteSpace (f ch) = isWhiteSpace ch) ->
  trimStart (map f s) = map f (trimStart s).
Proof.
  intros H. induction s as [| ch t IH]; simpl; [reflexivity |].
  rewrite H. destruct (isWhiteSpace ch); [assumption | reflexivity].
Qed.

Lemma trim_map (f : codeunit -> codeunit) (s : jsstring) :
  (forall ch, isWhiteSpace (f ch) = isWhiteSpace ch) ->
  trim (map f s) = map f (trim s).
Proof.
  intros H. unfold trim, trimEnd.
  now rewrite (trimStart_map _ _ H), <- map_rev, (trimStart_map _ _ H), map_rev.
Qed.

(** A string of the strict form has no white space at either end. *)
Lemma strictForm_trim (s : jsstring) : strictForm s -> trim s = s.
Proof.
  intros (l & d & t & -> & Nl & Al & Nd & Ad & Mt & At).
  unfold trim.
  destruct l as [| c l]; [congruence |]. simpl in Al.
  apply andb_prop in Al as [Hc _].
  change ((c :: l) ++ AT :: d ++ DOT :: t) with (c :: (l ++ AT :: d ++ DOT :: t)).
  rewrite trimStart_keeps by now apply isLocalChar_not_ws.
  destruct (exists_last (l := t)) as (t' & z & ->); [intros ->; simpl in Mt; lia |].
  rewrite forallb_app in At. apply andb_prop in At as [_ Hz]. simpl in Hz.
  rewrite andb_true_r in Hz.
  replace (c :: l ++ AT :: d ++ DOT :: t' ++ [z])
    with ((c :: l ++ AT :: d ++ DOT :: t') ++ [z])
    by (simpl; rewrite <- !app_assoc; simpl; rewrite <- !app_assoc; reflexivity).
  apply trimEnd_keeps. now apply isAlpha_not_ws.
Qed.

(** ** The validator *)

Lemma isValidEmail_iff (s : jsstring) :
  isValidEmail (JString s) = true <-> strictForm (trim s).
Proof.
  unfold isValidEmail. destruct s as [| ch t].
  - simpl. split; [discriminate |].
    intros (l & d & tl & E & _). destruct l; discriminate.
  - change (negb (truthy (JString (ch :: t))) || negb (isString (JString (ch :: t))))
      with false. cbv iota.
    apply STRICT_EMAIL_REGEX_accepts.
Qed.

Lemma count_AT_local (s : jsstring) :
  forallb isLocalChar s = true -> count_occ codeunit_eq_dec s AT = O.
Proof.
  intros H. apply count_occ_not_In. intros Hin.
  rewrite forallb_forall in H. now apply (isLocalChar_not_AT (H _ Hin)).
Qed.

Lemma forallb_weaken {A} (f g : A -> bool) (l : list A) :
  (forall a, f a = true -> g a = true) -> forallb f l = true -> forallb g l = true.
Proof.
  intros H. rewrite !forallb_forall. auto.
Qed.

(** The strict form is within the grammar as the specification words it. *)
Lemma strictForm_grammar (s : jsstring) : strictForm s -> strictGrammar s.
Proof.
  intros (l & d & t & -> & Nl & Al & Nd & Ad & Mt & At).
  assert (Hdom : forallb isDomainChar (d ++ DOT :: t) = true).
  { rewrite forallb_app. simpl. rewrite Ad. simpl.
    apply (forallb_weaken _ _ _ isAlpha_domain At). }
  split.
  - rewrite count_occ_app, (count_AT_local _ Al). simpl.
    destruct (codeunit_eq_dec AT AT) as [_ | N]; [| congruence].
    f_equal. apply count_AT_local.
    apply (forallb_weaken _ _ _ isDomainChar_local Hdom).
  - exists l, (d ++ DOT :: t). repeat split; try assumption.
    exists d, t. auto.
Qed.

Lemma forallb_map_eq {A} (p : A -> bool) (f : A -> A) (l : list A) :
  (forall a, p (f a) = p a) -> forallb p (map f l) = forallb p l.
Proof.
  intros H. induction l as [| a l IH]; simpl; [reflexivity | now rewrite H, IH].
Qed.

Lemma strictForm_lower (s : jsstring) :
  strictForm (map asciiLower s) <-> strictForm s.
Proof.
  split.
  - intros (l & d & t & E & Nl & Al & Nd & Ad & Mt & At).
    apply map_eq_app in E as (l' & r1 & -> & <- & E).
    apply map_eq_cons in E as (a & r2 & -> & Ea & E).
    apply map_eq_app in E as (d' & r3 & -> & <- & E).
    apply map_eq_cons in E as (b & t' & -> & Eb & <-).
    apply asciiLower_eq in Ea; [| reflexivity].
    apply asciiLower_eq in Eb; [| reflexivity]. subst a b.
    rewrite (forallb_map_eq _ _ _ asciiLower_local) in Al.
    rewrite (forallb_map_eq _ _ _ asciiLower_domain) in Ad.
    rewrite (forallb_map_eq _ _ _ asciiLower_alpha) in At.
    rewrite length_map in Mt.
    exists l', d', t'. repeat split; try assumption.
    + intros ->. now apply Nl.
    + intros ->. now apply Nd.
  - intros (l & d & t & -> & Nl & Al & Nd & Ad & Mt & At).
    exists (map asciiLower l), (map asciiLower d), (map asciiLower t).
    rewrite (forallb_map_eq _ _ _ asciiLower_local),
      (forallb_map_eq _ _ _ asciiLower_domain),
      (forallb_map_eq _ _ _ asciiLower_alpha), length_map.
    repeat split; try assumption.
    + rewrite map_app. simpl. rewrite map_app. reflexivity.
    + intros E. apply map_eq_nil in E. now apply Nl.
    + intros E. apply map_eq_nil in E. now apply Nd.
Qed.

(** C2, as the code has it. The validator trims before it matches, and the
    pattern wants every part present: a string whose trimmed form is
    outside the strict grammar (exactly one [@], local part of letters,
    digits and [. _ % + -], domain of letters, digits, [.] and [-], final
    label of at least two letters) is rejected; a string
    [local@domain.tld] with a non-empty local part from its class, a
    non-empty domain from its class and a [tld] of at least two letters is
    accepted. *)
Theorem isValidEmail_strict_grammar (s : jsstring) :
  (~ strictGrammar (trim s) -> isValidEmail (JString s) = false) /\
  (forall local domain tld,
      s = local ++ AT :: domain ++ DOT :: tld ->
      local <> [] -> forallb isLocalChar local = true ->
      domain <> [] -> forallb isDomainChar domain = true ->
      (2 <= length tld)%nat -> forallb isAlpha tld = true ->
      isValidEmail (JString s) = true).
Proof.
  split.
  - intros H. destruct (isValidEmail (JString s)) eqn:E; [| reflexivity].
    exfalso. apply H, strictForm_grammar, isValidEmail_iff, E.
  - intros l d t E Nl Al Nd Ad Mt At.
    assert (F : strictForm s) by (exists l, d, t; auto 10).
    apply isValidEmail_iff. now rewrite (strictForm_trim F).
Qed.

Lemma not_grammar_padded : ~ strictGrammar (js " a@b.co").
Proof.
  intros (_ & l & d & E & Al & _). vm_compute in E.
  destruct l as [| c l]; [discriminate |].
  injection E as <- _. simpl in Al. discriminate.
Qed.

Lemma isValidEmail_strict_grammar_witness :
  isValidEmail (JString (js "not-an-email")) = false /\
  isValidEmail (JString (js "bob@sub.example.co.uk")) = true.
Proof.
  split.
  - apply (proj1 (isValidEmail_strict_grammar (js "not-an-email"))).
    intros (Hc & _). vm_compute in Hc. discriminate.
  - apply (proj2 (isValidEmail_strict_grammar (js "bob@sub.example.co.uk"))
             (js "bob") (js "sub.example.co") (js "uk"));
      try reflexivity; discriminate.
Defined.

(** C2 as stated fails on padded input, which is trimmed and accepted, and
    on strings with an empty local part or an empty domain, which the
    pattern rejects. *)
Lemma isValidEmail_strict_grammar_counterexample :
  (~ strictGrammar (js " a@b.co") /\ isValidEmail (JString (js " a@b.co")) = true) /\
  isValidEmail (JString ([] ++ AT :: js "b" ++ DOT :: js "co")) = false /\
  isValidEmail (JString (js "a" ++ AT :: [] ++ DOT :: js "co")) = false.
Proof.
  split; [split; [exact not_grammar_padded | reflexivity] |].
  split; reflexivity.
Qed.

(** C9, as the code has it. The classes of the strict pattern list both
    letter cases, so upper-case letters are no ground for rejection: a
    string is accepted exactly when its form with [A-Z] lowered is. *)
Theorem isValidEmail_case_blind (s : jsstring) :
  isValidEmail (JString s) = isValidEmail (JString (map asciiLower s)).
Proof.
  apply eq_true_iff_eq. rewrite !isValidEmail_iff.
  rewrite (trim_map _ _ asciiLower_ws). symmetry. apply strictForm_lower.
Qed.

(** C9 as stated fails: a mixed-case address is accepted. *)
Lemma isValidEmail_mixed_case_counterexample :
  existsb isUpper (js "Jane@Example.com") = true /\
  isValidEmail (JString (js "Jane@Example.com")) = true.
Proof. split; reflexivity. Qed.

(** ** The extractor *)

Section Extractor.
Context {host : Host}.

(** On a non-empty string the extractor runs its pipeline and fulfils. *)
Lemma extract_string (content : jsstring) (options : ScrapingOptions) (w : World) :
  content <> [] ->
  extractEmailsFromHTML (JString content) options w =
  (Normal
     {| emails :=
          match String_match content EMAIL_REGEX with
          | Some ms =>
              let cleaned :=
                filter (fun email => fst (RegExp_test STRICT_EMAIL_REGEX email))
                       (map (fun email => toLowerCase (trim email)) ms) in
              let deduped :=
                if negb (includeDuplicates options) then Set_from cleaned else cleaned in
              match filterPattern options with
              | Some re => filterTest re deduped
              | None => deduped
              end
          | None => []
          end |}, w).
Proof. destruct content; [congruence | reflexivity]. Qed.

Lemma lower_trim_ascii (s t : jsstring) :
  trim s = t -> forallb isAscii t = true -> toLowerCase (trim s) = map asciiLower t.
Proof. intros -> H. now apply toLowerCase_ascii. Qed.

Lemma sample_matches :
  String_match sampleContent EMAIL_REGEX =
  Some [js "Jane@Example.com"; js "jane@example.com"; js "bob@sub.example.co.uk"].
Proof. vm_compute. reflexivity. Qed.

Lemma sample_cleaned :
  map (fun email => toLowerCase (trim email))
      [js "Jane@Example.com"; js "jane@example.com"; js "bob@sub.example.co.uk"] =
  [js "jane@example.com"; js "jane@example.com"; js "bob@sub.example.co.uk"].
Proof.
  cbn [map].
  rewrite (lower_trim_ascii (js "Jane@Example.com") eq_refl eq_refl).
  rewrite (lower_trim_ascii (js "jane@example.com") eq_refl eq_refl).
  rewrite (lower_trim_ascii (js "bob@sub.example.co.uk") eq_refl eq_refl).
  reflexivity.
Qed.

(** C1. On the sample content and with the default options the extractor
    fulfils with exactly [jane@example.com] and [bob@sub.example.co.uk],
    in that order, on every host. *)
Theorem extract_sample_default (w : World) :
  extractEmailsFromHTML (JString sampleContent) defaultScrapingOptions w =
  (Normal {| emails := [js "jane@example.com"; js "bob@sub.example.co.uk"] |}, w).
Proof.
  rewrite extract_string by discriminate.
  rewrite sample_matches. cbv zeta. rewrite sample_cleaned. reflexivity.
Qed.

(** C4, as the code has it. With [includeDuplicates: true] both occurrences
    of the jane address stay, each lower-cased by the normalizing step: the
    result is [jane@example.com] twice, then [bob@sub.example.co.uk]. *)
Theorem extract_sample_duplicates (w : World) :
  extractEmailsFromHTML (JString sampleContent)
    {| includeDuplicates := true; filterPattern := None |} w =
  (Normal {| emails := [js "jane@example.com"; js "jane@example.com";
                        js "bob@sub.example.co.uk"] |}, w).
Proof.
  rewrite extract_string by discriminate.
  rewrite sample_matches. cbv zeta. rewrite sample_cleaned. reflexivity.
Qed.

(** C7. Given anything that is not a string ([undefined], [null], a number,
    an array, ...) the extractor fulfils with no emails; the error it threw
    inside goes to the console and nowhere else. *)
Theorem extract_non_string (v : JsValue) (options : ScrapingOptions) (w : World) :
  isString v = false ->
  extractEmailsFromHTML v options w =
  (Normal {| emails := [] |},
   {| clipboard := clipboard w;
      console := console w ++ [(js "Error extracting emails:",
                                Error (js "Invalid HTML content provided"))] |}).
Proof.
  intros H. unfold extractEmailsFromHTML, tryCatch.
  rewrite H. simpl negb. rewrite orb_true_r. reflexivity.
Qed.

(** The empty string goes the same way. *)
Lemma extract_empty_string (options : ScrapingOptions) (w : World) :
  fst (extractEmailsFromHTML (JString []) options w) = Normal {| emails := [] |}.
Proof. reflexivity. Qed.

(** The promise of the extractor is never rejected. *)
Lemma extract_fulfils (v : JsValue) (options : ScrapingOptions) (w : World) :
  exists r w', extractEmailsFromHTML v options w = (Normal r, w').
Proof.
  destruct (isString v) eqn:S.
  - destruct v; try discriminate. destruct s as [| ch t].
    + eexists. eexists. reflexivity.
    + eexists. eexists. apply extract_string. discriminate.
  - unfold extractEmailsFromHTML, tryCatch.
    rewrite S. simpl negb. rewrite orb_true_r.
    eexists. eexists. reflexivity.
Qed.

End Extractor.

Lemma extract_non_string_witness :
  extractEmailsFromHTML (host := latin1Host) JUndefined defaultScrapingOptions
    {| clipboard := []; console := [] |} =
  (Normal {| emails := [] |},
   {| clipboard := [];
      console := [(js "Error extracting emails:",
                   Error (js "Invalid HTML content provided"))] |}).
Proof.
  exact (@extract_non_string latin1Host JUndefined defaultScrapingOptions
           {| clipboard := []; console := [] |} eq_refl).
Defined.

(** C4 as stated fails: the mixed-case spelling is not in the result. *)
Lemma extract_sample_duplicates_counterexample :
  extractEmailsFromHTML (host := latin1Host) (JString sampleContent)
    {| includeDuplicates := true; filterPattern := None |}
    {| clipboard := []; console := [] |} =
  (Normal {| emails := [js "jane@example.com"; js "jane@example.com";
                        js "bob@sub.example.co.uk"] |},
   {| clipboard := []; console := [] |}) /\
  ~ In (js "Jane@Example.com")
       [js "jane@example.com"; js "jane@example.com"; js "bob@sub.example.co.uk"].
Proof.
  split; [reflexivity |].
  vm_compute. intros [H | [H | [H | []]]]; discriminate.
Qed.

(** ** The deduplicator *)

Section Deduplicator.
Context {host : Host}.

Lemma filter_implied {A} (P Q : A -> bool) (l : list A) :
  (forall a, P a = true -> Q a = true) -> filter P (filter Q l) = filter P l.
Proof.
  intros H. induction l as [| a l IH]; simpl; [reflexivity |].
  destruct (Q a) eqn:EQ; simpl.
  - now rewrite IH.
  - destruct (P a) eqn:EP; [| assumption]. apply H in EP. congruence.
Qed.

Lemma filter_both {A} (P Q R : A -> bool) (l : list A) :
  (forall a, R a = P a && Q a) -> filter R l = filter P (filter Q l).
Proof.
  intros H. induction l as [| a l IH]; simpl; [reflexivity |].
  rewrite H. destruct (Q a); simpl.
  - rewrite andb_true_r. destruct (P a); now rewrite IH.
  - now rewrite andb_false_r.
Qed.

Lemma filter_all {A} (P : A -> bool) (l : list A) :
  (forall a, P a = true) -> filter P l = l.
Proof.
  intros H. induction l as [| a l IH]; simpl; [reflexivity |]. now rewrite H, IH.
Qed.

Lemma Set_has_add (s : JsSet) (x y : jsstring) :
  Set_has (Set_add s x) y = Set_has s y || jsstring_eqb y x.
Proof.
  apply eq_true_iff_eq.
  rewrite orb_true_iff, !Set_has_In, Set_add_In, jsstring_eqb_eq. tauto.
Qed.

(** The filter of the code keeps, of the first occurrences, those whose key
    was not seen before. *)
Lemma filterUnseen_firstByKey (xs : list jsstring) :
  forall seen,
    filterUnseen seen xs =
    filter (fun y => negb (Set_has seen (dedupeKey y))) (firstByKey xs).
Proof.
  induction xs as [| x t IH]; intros seen; [reflexivity |].
  cbn [filterUnseen firstByKey filter]. fold (dedupeKey x).
  destruct (Set_has seen (dedupeKey x)) eqn:E; cbn [negb].
  - rewrite IH. symmetry. apply filter_implied. intros y Hy.
    apply negb_true_iff in Hy. apply negb_true_iff.
    destruct (jsstring_eqb (dedupeKey y) (dedupeKey x)) eqn:K; [| reflexivity].
    apply jsstring_eqb_eq in K. congruence.
  - f_equal. rewrite IH. apply filter_both. intros y.
    now rewrite Set_has_add, negb_orb.
Qed.

(** C3. [removeDuplicateEmails] keeps the first occurrences, in order and as
    written: on every array it gives what is left when each entry removes
    the later ones with its key. The key of an entry is its form trimmed
    and lower-cased ([toLowerCase().trim()], the same thing on ASCII), so
    entries that differ in case or in surrounding white space only are
    duplicates. So [A@x.com], [a@x.com], [B@y.com] become [A@x.com],
    [B@y.com], and padded spellings go the same way. *)
Theorem dedupe_first_occurrence :
  removeDuplicateEmails (JArray [js "A@x.com"; js "a@x.com"; js "B@y.com"]) =
  [js "A@x.com"; js "B@y.com"] /\
  removeDuplicateEmails
    (JArray [js " A@x.com"; js "B@y.com"; js "a@x.com  "; js "b@Y.COM"; js "c@z.org"]) =
  [js " A@x.com"; js "B@y.com"; js "c@z.org"] /\
  (forall xs, removeDuplicateEmails (JArray xs) = firstByKey xs) /\
  (forall e, forallb isAscii e = true -> dedupeKey e = map asciiLower (trim e)).
Proof.
  split; [| split; [| split]].
  - unfold removeDuplicateEmails. cbn [filterUnseen].
    rewrite (toLowerCase_ascii (js "A@x.com") eq_refl).
    rewrite (toLowerCase_ascii (js "a@x.com") eq_refl).
    rewrite (toLowerCase_ascii (js "B@y.com") eq_refl).
    reflexivity.
  - unfold removeDuplicateEmails. cbn [filterUnseen].
    rewrite (toLowerCase_ascii (js " A@x.com") eq_refl).
    rewrite (toLowerCase_ascii (js "B@y.com") eq_refl).
    rewrite (toLowerCase_ascii (js "a@x.com  ") eq_refl).
    rewrite (toLowerCase_ascii (js "b@Y.COM") eq_refl).
    rewrite (toLowerCase_ascii (js "c@z.org") eq_refl).
    reflexivity.
  - intros xs. unfold removeDuplicateEmails.
    rewrite filterUnseen_firstByKey. now apply filter_all.
  - intros e He. unfold dedupeKey.
    rewrite (toLowerCase_ascii e He). apply trim_map, asciiLower_ws.
Qed.

(** Surrounding white space does not tell two entries apart either. *)
Lemma dedupe_trims :
  removeDuplicateEmails (JArray [js "a@x.com"; js " A@X.com "]) = [js "a@x.com"].
Proof.
  unfold removeDuplicateEmails. cbn [filterUnseen].
  rewrite (toLowerCase_ascii (js "a@x.com") eq_refl).
  rewrite (toLowerCase_ascii (js " A@X.com ") eq_refl).
  reflexivity.
Qed.

(** Filtering what was already filtered, with no more keys seen than
    before, drops nothing. *)
Lemma filterUnseen_again (xs : list jsstring) :
  forall seen seen',
    (forall k, In k seen' -> In k seen) ->
    filterUnseen seen' (filterUnseen seen xs) = filterUnseen seen xs.
Proof.
  induction xs as [| x t IH]; intros seen seen' Hsub; simpl; [reflexivity |].
  destruct (Set_has seen (trim (toLowerCase x))) eqn:E.
  - now apply IH.
  - simpl. apply Set_has_false in E.
    assert (E' : Set_has seen' (trim (toLowerCase x)) = false).
    { apply Set_has_false. intros Hin. apply E, Hsub, Hin. }
    rewrite E'. f_equal. apply IH.
    intros k Hk. apply Set_add_In in Hk. apply Set_add_In.
    destruct Hk as [Hk | ->]; [left; now apply Hsub | now right].
Qed.

(** C5. Deduplicating twice is deduplicating once. *)
Theorem dedupe_idempotent (v : JsValue) :
  removeDuplicateEmails (JArray (removeDuplicateEmails v)) = removeDuplicateEmails v.
Proof.
  destruct v; try reflexivity. simpl. now apply filterUnseen_again.
Qed.

(** What is kept is a sub-list of the input with pairwise different keys. *)
Lemma filterUnseen_keys (xs : list jsstring) :
  forall seen,
    NoDup (map (fun e => trim (toLowerCase e)) (filterUnseen seen xs)) /\
    (forall e, In e (filterUnseen seen xs) ->
               In e xs /\ ~ In (trim (toLowerCase e)) seen).
Proof.
  induction xs as [| x t IH]; intros seen; simpl.
  - split; [constructor | intros e []].
  - destruct (Set_has seen (trim (toLowerCase x))) eqn:E.
    + destruct (IH seen) as [N I]. split; [assumption |].
      intros e He. destruct (I e He). auto.
    + apply Set_has_false in E.
      destruct (IH (Set_add seen (trim (toLowerCase x)))) as [N I]. split.
      * simpl. constructor; [| assumption].
        intros Hin. apply in_map_iff in Hin as (e & Ek & He).
        destruct (I e He) as [_ Hn]. apply Hn, Set_add_In. now right.
      * intros e [<- | He]; [auto |].
        destruct (I e He) as [Hin Hn]. split; [auto |].
        intros Hs. apply Hn, Set_add_In. now left.
Qed.

End Deduplicator.

Lemma dedupe_first_occurrence_witness :
  dedupeKey (host := latin1Host) (js " Jane@Example.com ") =
  map asciiLower (trim (js " Jane@Example.com ")).
Proof.
  exact (proj2 (proj2 (proj2 (@dedupe_first_occurrence latin1Host)))
               (js " Jane@Example.com ") eq_refl).
Defined.

(** ** The clipboard formatter *)

Lemma format_nonempty (xs : list jsstring) (options : PartialClipboardOptions) :
  xs <> [] ->
  formatEmailsForClipboard (JArray xs) options =
  (if includeHeaders (mergeOptions DEFAULT_CLIPBOARD_OPTIONS options)
   then js "Emails found (" ++ Number_toString (length (Set_from xs)) ++ js "):" ++ [LF]
   else []) ++
  join (separator (mergeOptions DEFAULT_CLIPBOARD_OPTIONS options)) (Set_from xs).
Proof. destruct xs; [congruence | reflexivity]. Qed.

(** C6. The formatter gives the empty string on empty input; otherwise it
    keeps one copy of every literal string of the input (no two kept
    entries are equal, and the kept entries are those of the input), puts
    the line [Emails found (N):] and a line break first when
    [includeHeaders] is set, [N] being the number kept, and joins what it
    kept with the separator; and the worked example comes out as
    specified. *)
Theorem formatEmailsForClipboard_spec :
  (forall options, formatEmailsForClipboard (JArray []) options = []) /\
  (forall xs options,
      xs <> [] ->
      let config := mergeOptions DEFAULT_CLIPBOARD_OPTIONS options in
      let kept := Set_from xs in
      NoDup kept /\
      (forall e, In e kept <-> In e xs) /\
      formatEmailsForClipboard (JArray xs) options =
      (if includeHeaders config
       then js "Emails found (" ++ Number_toString (length kept) ++ js "):" ++ [LF]
       else []) ++ join (separator config) kept) /\
  formatEmailsForClipboard (JArray [js "a@x.com"; js "b@y.com"])
                           (withOptions (js ", ") true) =
  js "Emails found (2):" ++ [LF] ++ js "a@x.com, b@y.com".
Proof.
  split; [reflexivity |]. split; [| reflexivity].
  intros xs options Hne config kept.
  split; [apply Set_from_NoDup |].
  split; [intros e; apply Set_from_In |].
  now apply format_nonempty.
Qed.

Lemma formatEmailsForClipboard_spec_witness :
  formatEmailsForClipboard (JArray [js "a@x.com"; js "a@x.com"; js "b@y.com"])
                           (withOptions (js ";") false) =
  join (js ";") (Set_from [js "a@x.com"; js "a@x.com"; js "b@y.com"]).
Proof.
  refine (proj2 (proj2 (proj1 (proj2 formatEmailsForClipboard_spec)
                          [js "a@x.com"; js "a@x.com"; js "b@y.com"]
                          (withOptions (js ";") false) _))).
  discriminate.
Defined.

(** ** Formatting, then splitting *)

Lemma isPrefix_app (p s : jsstring) : isPrefix p (p ++ s) = true.
Proof.
  induction p as [| a p IH]; simpl; [reflexivity |].
  now rewrite N.eqb_refl, IH.
Qed.

Lemma splitLoop_skip (sep l : jsstring) :
  forall cur rest,
    splitLoop sep (length l) cur (l ++ rest) = splitLoop sep 0 cur rest.
Proof.
  induction l as [| a l IH]; intros cur rest; simpl; [reflexivity | apply IH].
Qed.

Lemma splitLoop_separator (c : codeunit) (sep' cur rest : jsstring) :
  splitLoop (c :: sep') 0 cur ((c :: sep') ++ rest) =
  cur :: splitLoop (c :: sep') 0 [] rest.
Proof.
  cbn [app splitLoop]. change (c :: sep' ++ rest) with ((c :: sep') ++ rest).
  rewrite isPrefix_app. f_equal.
  cbn [length]. rewrite Nat.sub_succ, Nat.sub_0_r. apply splitLoop_skip.
Qed.

Lemma splitLoop_piece (c : codeunit) (sep' e : jsstring) :
  forall cur rest,
    ~ In c e ->
    splitLoop (c :: sep') 0 cur (e ++ rest) = splitLoop (c :: sep') 0 (cur ++ e) rest.
Proof.
  induction e as [| ch e IH]; intros cur rest Hc.
  - simpl. now rewrite app_nil_r.
  - cbn [app splitLoop isPrefix].
    assert (E : (c =? ch) = false).
    { apply N.eqb_neq. intros ->. apply Hc. now left. }
    rewrite E. cbn [andb]. rewrite IH.
    + now rewrite <- app_assoc.
    + intros Hin. apply Hc. now right.
Qed.

Lemma split_join (c : codeunit) (sep' : jsstring) (xs : list jsstring) :
  xs <> [] ->
  (forall e, In e xs -> ~ In c e) ->
  String_split (join (c :: sep') xs) (c :: sep') = xs.
Proof.
  unfold String_split.
  induction xs as [| x t IH]; intros Hne Hc; [congruence |].
  destruct t as [| y t].
  - cbn [join]. rewrite <- (app_nil_r x) at 1.
    rewrite splitLoop_piece by (apply Hc; now left). reflexivity.
  - cbn [join]. rewrite splitLoop_piece by (apply Hc; now left).
    rewrite splitLoop_separator. cbn [app]. f_equal.
    apply IH; [discriminate |]. intros e He. apply Hc. now right.
Qed.

(** C8, as the code has it. Without the header line, from a non-empty list,
    and with a non-empty separator whose first character is in none of the
    emails, splitting the payload by the separator gives back the
    deduplicated emails, in the order of their first occurrence. *)
Theorem format_split_roundtrip (xs : list jsstring) (options : PartialClipboardOptions)
        (c : codeunit) (sep' : jsstring) :
  xs <> [] ->
  includeHeaders (mergeOptions DEFAULT_CLIPBOARD_OPTIONS options) = false ->
  separator (mergeOptions DEFAULT_CLIPBOARD_OPTIONS options) = c :: sep' ->
  (forall e, In e xs -> ~ In c e) ->
  String_split (formatEmailsForClipboard (JArray xs) options) (c :: sep') = Set_from xs.
Proof.
  intros Hne Hh Hs Hc. rewrite format_nonempty by assumption.
  rewrite Hh, Hs. cbn [app]. apply split_join.
  - now apply Set_from_nonempty.
  - intros e He. apply Hc. now apply Set_from_In.
Qed.

Lemma format_split_roundtrip_witness :
  String_split
    (formatEmailsForClipboard (JArray [js "a@x.com"; js "b@y.com"; js "a@x.com"])
                              (withOptions (js ", ") false))
    (js ", ") =
  Set_from [js "a@x.com"; js "b@y.com"; js "a@x.com"].
Proof.
  refine (@format_split_roundtrip [js "a@x.com"; js "b@y.com"; js "a@x.com"]
            (withOptions (js ", ") false) 44 (js " ") _ eq_refl eq_refl _).
  - discriminate.
  - intros e [<- | [<- | [<- | []]]]; vm_compute;
      intros H; repeat (destruct H as [H | H]; [discriminate |]); exact H.
Defined.

(** C8 as stated fails three ways: with the header line the first piece
    carries the header; a separator that is in no email can still begin
    inside one and end in the separator proper; and the empty list comes
    back as one empty string. *)
Lemma format_split_roundtrip_counterexample :
  (forallb (fun e => negb (occursIn (js ", ") e)) [js "a@x.com"; js "b@y.com"] = true /\
   String_split
     (formatEmailsForClipboard (JArray [js "a@x.com"; js "b@y.com"])
                               (withOptions (js ", ") true))
     (js ", ") =
   [js "Emails found (2):" ++ [LF] ++ js "a@x.com"; js "b@y.com"] /\
   Set_from [js "a@x.com"; js "b@y.com"] = [js "a@x.com"; js "b@y.com"]) /\
  (forallb (fun e => negb (occursIn (js "oo") e)) [js "a@b.co"; js "o@d.co"] = true /\
   String_split
     (formatEmailsForClipboard (JArray [js "a@b.co"; js "o@d.co"])
                               (withOptions (js "oo") false))
     (js "oo") =
   [js "a@b.c"; []; js "@d.co"] /\
   Set_from [js "a@b.co"; js "o@d.co"] = [js "a@b.co"; js "o@d.co"]) /\
  (String_split (formatEmailsForClipboard (JArray []) (withOptions (js ",") false))
                (js ",") = [[]] /\
   Set_from [] = []).
Proof. repeat split. Qed.

(** ** Copying *)

Section Copying.
Variable browser : Browser.

(** [copyToClipboard] never throws, and when it answers [true] the text is
    on the clipboard. *)
Lemma copyToClipboard_true (text : jsstring) (w : World) :
  exists ok w',
    copyToClipboard browser (JString text) w = (Normal ok, w') /\
    (ok = true -> clipboard w' = text /\ text <> []).
Proof.
  unfold copyToClipboard, copyToClipboardFallback, tryCatch, bind, throw, ret,
    consoleError, writeClipboard.
  destruct text as [| ch t]; simpl.
  - eexists. eexists. split; [reflexivity | discriminate].
  - destruct (asyncClipboard browser), (writeTextResolves browser),
      (execCommandCopy browser) as [[|] |]; simpl;
      eexists; eexists; (split; [reflexivity |]);
      first [discriminate | intros _; split; [reflexivity | discriminate]].
Qed.

(** C10. When [copyEmailsToClipboard] reports success for a non-empty list,
    the count in its message is the length of the input list, while the
    clipboard holds the formatted payload, which carries one entry per
    distinct literal string; with a repeated string in the input the count
    in the message is larger than the number of entries copied. *)
Theorem copy_message_counts_input (xs : list jsstring)
        (options : PartialClipboardOptions) (w w' : World) (r : CopyResult) :
  xs <> [] ->
  copyEmailsToClipboard browser (JArray xs) options w = (Normal r, w') ->
  success r = true ->
  message r = Number_toString (length xs) ++ js " email" ++ plural (length xs)
                ++ js " copied to clipboard!" /\
  clipboard w' = formatEmailsForClipboard (JArray xs) options /\
  formatEmailsForClipboard (JArray xs) options =
    (if includeHeaders (mergeOptions DEFAULT_CLIPBOARD_OPTIONS options)
     then js "Emails found (" ++ Number_toString (length (Set_from xs)) ++ js "):" ++ [LF]
     else []) ++
    join (separator (mergeOptions DEFAULT_CLIPBOARD_OPTIONS options)) (Set_from xs) /\
  (length (Set_from xs) <= length xs)%nat /\
  (~ NoDup xs -> (length (Set_from xs) < length xs)%nat).
Proof.
  intros Hne Hrun Hok.
  assert (Hlen : (length xs =? 0)%nat = false).
  { destruct xs; [congruence | reflexivity]. }
  unfold copyEmailsToClipboard, tryCatch, bind in Hrun. rewrite Hlen in Hrun.
  destruct (copyToClipboard_true (formatEmailsForClipboard (JArray xs) options) w)
    as (ok & w1 & Hcopy & Hclip).
  rewrite Hcopy in Hrun. destruct ok; unfold ret in Hrun; injection Hrun as <- <-.
  - destruct (Hclip eq_refl) as [Hc _].
    repeat split; [exact Hc | now apply format_nonempty | apply Set_from_length
                   | apply Set_from_shorter].
  - discriminate.
Qed.

(** The call never rejects, whatever it is given. *)
Lemma copyEmailsToClipboard_fulfils (emails : JsValue)
      (options : PartialClipboardOptions) (w : World) :
  exists r w', copyEmailsToClipboard browser emails options w = (Normal r, w').
Proof.
  unfold copyEmailsToClipboard, tryCatch, bind.
  destruct emails as [| | | | | xs |]; try (eexists; eexists; reflexivity).
  destruct (length xs =? 0)%nat; [eexists; eexists; reflexivity |].
  destruct (copyToClipboard_true (formatEmailsForClipboard (JArray xs) options) w)
    as (ok & w1 & -> & _).
  destruct ok; eexists; eexists; reflexivity.
Qed.

End Copying.

Lemma copy_message_counts_input_witness :
  let browser := {| asyncClipboard := true; writeTextResolves := true;
                    execCommandCopy := None |} in
  let xs := [js "a@x.com"; js "a@x.com"] in
  let w := {| clipboard := []; console := [] |} in
  let r := {| success := true; message := js "2 emails copied to clipboard!" |} in
  let w' := {| clipboard := js "a@x.com"; console := [] |} in
  message r = Number_toString (length xs) ++ js " email" ++ plural (length xs)
                ++ js " copied to clipboard!" /\
  clipboard w' = formatEmailsForClipboard (JArray xs) noOptions /\
  formatEmailsForClipboard (JArray xs) noOptions =
    (if includeHeaders (mergeOptions DEFAULT_CLIPBOARD_OPTIONS noOptions)
     then js "Emails found (" ++ Number_toString (length (Set_from xs)) ++ js "):" ++ [LF]
     else []) ++
    join (separator (mergeOptions DEFAULT_CLIPBOARD_OPTIONS noOptions)) (Set_from xs) /\
  (length (Set_from xs) <= length xs)%nat /\
  (~ NoDup xs -> (length (Set_from xs) < length xs)%nat).
Proof.
  intros browser xs w r w'.
  refine (@copy_message_counts_input browser xs noOptions w w' r _ eq_refl eq_refl).
  discriminate.
Defined.

(** * Further properties *)

(** ** The scan pattern under the [i] flag *)

(** A class is case blind when all its members are ASCII and, on ASCII,
    matching with and without the [i] flag agree; both are checked by
    running the class. *)
Definition caseBlind (A : CharClass) : bool :=
  forallb (fun a => a <? 128) (classUnits A) &&
  forallb (fun n => Bool.eqb (inClass true A (N.of_nat n)) (inClass false A (N.of_nat n)))
          (seq 0 128).

Lemma asciiUpper_le (a : codeunit) : asciiUpper a <= a.
Proof. unfold asciiUpper. destruct (isLower a); lia. Qed.

Lemma inClass_beyond_ascii (ic : bool) (A : CharClass) (ch : codeunit) :
  forallb (fun a => a <? 128) (classUnits A) = true ->
  128 <= ch -> inClass ic A ch = false.
Proof.
  intros HA Hch. destruct (inClass ic A ch) eqn:E; [exfalso | reflexivity].
  unfold inClass in E. apply existsb_exists in E as (a & Ha & E).
  rewrite forallb_forall in HA. specialize (HA a Ha).
  apply N.ltb_lt in HA. apply N.eqb_eq in E.
  assert (Hc : Canonicalize ic ch = ch).
  { unfold Canonicalize, isAscii.
    replace (ch <? 128) with false by (symmetry; apply N.ltb_ge; lia).
    now rewrite andb_false_r. }
  assert (Ha' : Canonicalize ic a <= a).
  { unfold Canonicalize. destruct (ic && isAscii a); [apply asciiUpper_le | lia]. }
  lia.
Qed.

Lemma caseBlind_spec (A : CharClass) :
  caseBlind A = true -> forall ch, inClass true A ch = inClass false A ch.
Proof.
  unfold caseBlind. intros H ch. apply andb_prop in H as [Hunits Htable].
  destruct (N.lt_ge_cases ch 128) as [Hlt | Hge].
  - rewrite forallb_forall in Htable.
    specialize (Htable (N.to_nat ch)). rewrite N2Nat.id in Htable.
    apply eqb_prop, Htable, in_seq. lia.
  - now rewrite !inClass_beyond_ascii.
Qed.

Lemma Lang_flag_mono (ic ic' : bool) (r : Regex) :
  (forall A, In A (classesOf r) -> forall ch, inClass ic A ch = inClass ic' A ch) ->
  forall x y, Lang ic r x y -> Lang ic' r x y.
Proof.
  induction r as [| r1 IH1 r2 IH2 | r1 IH1 | | | A | min A]; intros HA x y L; simpl in *.
  - assumption.
  - destruct L as (z & L1 & L2). exists z. split.
    + apply IH1; [| assumption]. intros A HinA. apply HA, in_or_app. now left.
    + apply IH2; [| assumption]. intros A HinA. apply HA, in_or_app. now right.
  - now apply IH1.
  - assumption.
  - assumption.
  - destruct L as (ch & E & Hin & Hi). exists ch.
    rewrite <- (HA A (or_introl eq_refl)). auto.
  - destruct L as (pre & E & Hall & Hmin & Hi). exists pre.
    rewrite <- (forallb_ext_eq _ _ pre (HA A (or_introl eq_refl))). auto.
Qed.

Lemma emailPattern_caseBlind :
  forallb caseBlind (classesOf emailPattern) = true.
Proof. vm_compute. reflexivity. Qed.

(** With or without the [i] flag, the scan pattern matches the same. *)
Lemma Lang_emailPattern_flag (x y : MatchState) :
  Lang true emailPattern x y -> Lang false emailPattern x y.
Proof.
  apply Lang_flag_mono. intros A HA.
  apply caseBlind_spec.
  pose proof emailPattern_caseBlind as H. rewrite forallb_forall in H. now apply H.
Qed.

Lemma search_Lang (ic : bool) (r : Regex) (s : jsstring) :
  forall i m,
    search ic r i s = Some m ->
    exists s',
      Lang ic r {| endIndex := index m; remaining := s' |} (after m) /\
      matched m = firstn (endIndex (after m) - index m) s'.
Proof.
  induction s as [| ch t IH]; intros i m H; simpl in H;
    destruct (matcher ic r _ _) as [y |] eqn:Hm.
  - injection H as <-. simpl.
    destruct (matcher_sound _ _ _ _ Hm) as (y' & L & Ey). injection Ey as ->. eauto.
  - discriminate.
  - injection H as <-. simpl.
    destruct (matcher_sound _ _ _ _ Hm) as (y' & L & Ey). injection Ey as ->. eauto.
  - eauto.
Qed.

Lemma emailPattern_matched (i : nat) (s : jsstring) (y : MatchState) :
  Lang false emailPattern {| endIndex := i; remaining := s |} y ->
  strictForm (firstn (endIndex y - i) s).
Proof.
  intros L. apply Lang_emailPattern in L as (l & d & t & E & H). simpl in E.
  destruct H as (Nl & Al & Nd & Ad & Mt & At & Hi). simpl in Hi.
  exists l, d, t. repeat split; try assumption.
  rewrite E, Hi.
  replace (l ++ AT :: d ++ DOT :: t ++ remaining y)
    with ((l ++ AT :: d ++ DOT :: t) ++ remaining y)
    by (rewrite <- !app_assoc; simpl; rewrite <- !app_assoc; reflexivity).
  replace (i + length l + 1 + length d + 1 + length t - i)%nat
    with (length (l ++ AT :: d ++ DOT :: t) + 0)%nat
    by (rewrite length_app; simpl; rewrite length_app; simpl; lia).
  rewrite firstn_app_2. simpl. now rewrite app_nil_r.
Qed.

Lemma matchLoop_strictForm (input : jsstring) :
  forall fuel re,
    source re = Group emailPattern -> ignoreCase re = true ->
    Forall strictForm (matchLoop fuel re input).
Proof.
  induction fuel as [| fuel IH]; intros re Hs Hi; simpl; [constructor |].
  destruct (RegExpBuiltinExec re input) as [[m |] re'] eqn:E; [| constructor].
  unfold RegExpBuiltinExec in E.
  assert (Hm : strictForm (matched m) /\ source re' = source re /\
               ignoreCase re' = ignoreCase re).
  { destruct (length input <? _)%nat; [destruct (global re); discriminate |].
    destruct (search _ _ _ _) as [m' |] eqn:Hsearch;
      [| destruct (global re); discriminate].
    assert (m' = m /\ source re' = source re /\ ignoreCase re' = ignoreCase re)
      as (-> & Es & Ei) by (destruct (global re); injection E as <- <-; auto).
    split; [| auto].
    rewrite Hs, Hi in Hsearch.
    apply search_Lang in Hsearch as (s' & L & ->).
    apply emailPattern_matched. apply Lang_emailPattern_flag. exact L. }
  destruct Hm as (Hm & Es & Ei). constructor; [assumption |].
  apply IH; destruct (matched m); simpl; congruence.
Qed.

Lemma String_match_strictForm (input : jsstring) (ms : list jsstring) :
  String_match input EMAIL_REGEX = Some ms -> Forall strictForm ms.
Proof.
  unfold String_match. intros H.
  pose proof (matchLoop_strictForm input (length input + 2)
                (setLastIndex EMAIL_REGEX 0) eq_refl eq_refl) as F.
  destruct (matchLoop _ _ _) as [| m t]; [discriminate |].
  now injection H as <-.
Qed.

(** X1. Whatever the input, every substring [input.match(EMAIL_REGEX)]
    returns has the form [local@domain.tld] of the strict pattern, and a
    result that is not [null] is not empty. *)
Theorem scan_matches_strict (input : jsstring) (ms : list jsstring) :
  String_match input EMAIL_REGEX = Some ms ->
  ms <> [] /\ Forall strictForm ms.
Proof.
  intros H. split; [| now apply String_match_strictForm with input].
  unfold String_match in H. destruct (matchLoop _ _ _); [discriminate |].
  injection H as <-. discriminate.
Qed.

Lemma scan_matches_strict_witness :
  [js "Jane@Example.com"; js "jane@example.com"; js "bob@sub.example.co.uk"] <> [] /\
  Forall strictForm
         [js "Jane@Example.com"; js "jane@example.com"; js "bob@sub.example.co.uk"].
Proof. exact (scan_matches_strict sampleContent sample_matches). Defined.

(** ** What the extractor returns *)

Lemma isLocalChar_ascii (ch : codeunit) : isLocalChar ch = true -> isAscii ch = true.
Proof.
  intros H. unfold isAscii. apply N.ltb_lt. chars. unbool; lia.
Qed.

Lemma strictForm_ascii (s : jsstring) : strictForm s -> forallb isAscii s = true.
Proof.
  intros (l & d & t & -> & _ & Al & _ & Ad & _ & At).
  rewrite forallb_forall in *. intros ch Hin.
  apply in_app_or in Hin as [Hin | [<- | Hin]];
    [now apply isLocalChar_ascii, Al | reflexivity |].
  apply in_app_or in Hin as [Hin | [<- | Hin]];
    [now apply isLocalChar_ascii, isDomainChar_local, Ad | reflexivity |].
  now apply isLocalChar_ascii, isDomainChar_local, isAlpha_domain, At.
Qed.

Lemma asciiLower_lowerAscii (ch : codeunit) :
  isAscii ch = true -> isLowerAscii (asciiLower ch) = true.
Proof.
  intros H. unfold isLowerAscii. destruct (isUpper ch) eqn:U.
  - destruct (asciiLower_upper _ U) as [L ->]. rewrite andb_true_r.
    unfold isAscii. apply N.ltb_lt. chars. unbool. lia.
  - rewrite (asciiLower_other _ U), H, U. reflexivity.
Qed.

Lemma asciiLower_id (s : jsstring) :
  forallb isLowerAscii s = true -> map asciiLower s = s.
Proof.
  intros H. rewrite <- (map_id s) at 2. apply map_ext_in. intros ch Hin.
  rewrite forallb_forall in H. specialize (H ch Hin).
  unfold isLowerAscii in H. apply andb_prop in H as [_ H].
  apply asciiLower_other. now destruct (isUpper ch).
Qed.

Lemma filterTest_In (xs : list jsstring) :
  forall re e, In e (filterTest re xs) -> In e xs.
Proof.
  induction xs as [| x t IH]; intros re e H; simpl in H; [assumption |].
  destruct (RegExp_test re x) as [[|] re'].
  - destruct H as [-> | H]; [now left | right; eauto].
  - right. eauto.
Qed.

Lemma filterTest_NoDup (xs : list jsstring) :
  forall re, NoDup xs -> NoDup (filterTest re xs).
Proof.
  induction xs as [| x t IH]; intros re H; simpl; [constructor |].
  inversion H as [| ? ? Hx Ht]; subst.
  destruct (RegExp_test re x) as [[|] re']; [| now apply IH].
  constructor; [| now apply IH]. intros Hin. apply Hx. eapply filterTest_In, Hin.
Qed.

Section ExtractorInvariants.
Context {host : Host}.

(** A match of the scan, normalized: lower-cased, and still of the strict
    form. *)
Lemma normalize_match (m : jsstring) :
  strictForm m ->
  toLowerCase (trim m) = map asciiLower m /\ strictForm (map asciiLower m).
Proof.
  intros F. rewrite (strictForm_trim F).
  rewrite (toLowerCase_ascii _ (strictForm_ascii F)).
  split; [reflexivity | now apply strictForm_lower].
Qed.

Lemma cleaned_matches (ms : list jsstring) :
  Forall strictForm ms ->
  filter (fun email => fst (RegExp_test STRICT_EMAIL_REGEX email))
         (map (fun email => toLowerCase (trim email)) ms) =
  map (map asciiLower) ms.
Proof.
  induction 1 as [| m ms F _ IH]; simpl; [reflexivity |].
  destruct (normalize_match F) as [-> F'].
  apply STRICT_EMAIL_REGEX_accepts in F'. rewrite F', IH. reflexivity.
Qed.

(** Either the argument is a non-empty string and the pipeline runs on the
    lower-cased matches, or no email comes out. *)
Lemma extract_cases (v : JsValue) (options : ScrapingOptions) (w : World) :
  (exists content ms,
      v = JString content /\ String_match content EMAIL_REGEX = Some ms /\
      Forall strictForm ms /\
      extractEmailsFromHTML v options w =
      (Normal
         {| emails :=
              let deduped :=
                if negb (includeDuplicates options)
                then Set_from (map (map asciiLower) ms)
                else map (map asciiLower) ms in
              match filterPattern options with
              | Some re => filterTest re deduped
              | None => deduped
              end |}, w)) \/
  fst (extractEmailsFromHTML v options w) = Normal {| emails := [] |}.
Proof.
  destruct (isString v) eqn:S.
  - destruct v; try discriminate. destruct s as [| ch t]; [now right |].
    rewrite extract_string by discriminate.
    destruct (String_match (ch :: t) EMAIL_REGEX) as [ms |] eqn:E; [left | now right].
    pose proof (String_match_strictForm _ E) as F.
    exists (ch :: t), ms. cbv zeta. rewrite (cleaned_matches F). auto.
  - right. unfold extractEmailsFromHTML, tryCatch.
    rewrite S. simpl negb. rewrite orb_true_r. reflexivity.
Qed.

(** Where an extracted email comes from. *)
Lemma extract_origin (v : JsValue) (options : ScrapingOptions) (w w' : World)
      (r : EmailScrapingResult) (e : jsstring) :
  extractEmailsFromHTML v options w = (Normal r, w') ->
  In e (emails r) ->
  exists m, strictForm m /\ e = map asciiLower m.
Proof.
  intros Hrun Hin.
  destruct (extract_cases v options w) as [(content & ms & _ & _ & F & E) | E].
  - rewrite E in Hrun. injection Hrun as <- _. cbn [emails] in Hin.
    assert (Hc : In e (map (map asciiLower) ms)).
    { destruct (filterPattern options) as [re |];
        [apply filterTest_In in Hin |];
        destruct (includeDuplicates options); cbn [negb] in Hin;
        try assumption; exact (proj1 (Set_from_In _ _) Hin). }
    apply in_map_iff in Hc as (m & <- & Hm).
    rewrite Forall_forall in F. exists m. split; [apply F, Hm | reflexivity].
  - rewrite Hrun in E. simpl in E. injection E as ->. destruct Hin.
Qed.

(** X2. With duplicates kept and no filter pattern, the result on a
    non-empty string is exactly the list of the scan's matches, each with
    [A-Z] lowered: the validation pass discards none of them. *)
Theorem validation_drops_nothing (content : jsstring) (w : World) :
  content <> [] ->
  extractEmailsFromHTML (JString content)
    {| includeDuplicates := true; filterPattern := None |} w =
  (Normal {| emails := match String_match content EMAIL_REGEX with
                       | Some ms => map (map asciiLower) ms
                       | None => []
                       end |}, w).
Proof.
  intros Hne. rewrite extract_string by assumption.
  destruct (String_match content EMAIL_REGEX) as [ms |] eqn:E; [| reflexivity].
  cbv zeta. simpl. now rewrite (cleaned_matches (String_match_strictForm _ E)).
Qed.

(** X3. Every email the extractor returns, whatever the argument and the
    options, is one [isValidEmail] accepts. *)
Theorem extract_emails_valid (v : JsValue) (options : ScrapingOptions)
        (w w' : World) (r : EmailScrapingResult) (e : jsstring) :
  extractEmailsFromHTML v options w = (Normal r, w') ->
  In e (emails r) ->
  isValidEmail (JString e) = true.
Proof.
  intros Hrun Hin. destruct (@extract_origin v options w w' r e Hrun Hin) as (m & F & ->).
  apply strictForm_lower in F. apply isValidEmail_iff.
  now rewrite (strictForm_trim F).
Qed.

(** X4. Every email the extractor returns is ASCII without upper-case
    letters. *)
Theorem extract_emails_lowercase (v : JsValue) (options : ScrapingOptions)
        (w w' : World) (r : EmailScrapingResult) (e : jsstring) :
  extractEmailsFromHTML v options w = (Normal r, w') ->
  In e (emails r) ->
  forallb isLowerAscii e = true.
Proof.
  intros Hrun Hin. destruct (@extract_origin v options w w' r e Hrun Hin) as (m & F & ->).
  apply strictForm_ascii in F. rewrite forallb_forall in *.
  intros ch Hch. apply in_map_iff in Hch as (c & <- & Hc).
  apply asciiLower_lowerAscii. auto.
Qed.

Lemma extract_NoDup (v : JsValue) (options : ScrapingOptions)
      (w w' : World) (r : EmailScrapingResult) :
  includeDuplicates options = false ->
  extractEmailsFromHTML v options w = (Normal r, w') ->
  NoDup (emails r).
Proof.
  intros Hd Hrun.
  destruct (extract_cases v options w) as [(content & ms & _ & _ & F & E) | E].
  - rewrite E in Hrun. injection Hrun as <- _. cbn [emails]. rewrite Hd. cbn [negb].
    destruct (filterPattern options);
      [apply filterTest_NoDup |]; apply Set_from_NoDup.
  - rewrite Hrun in E. simpl in E. injection E as ->. constructor.
Qed.

(** X5. Unless duplicates are asked for, no email occurs twice in the
    result, with or without a filter pattern. *)
Theorem extract_no_duplicates (v : JsValue) (options : ScrapingOptions)
        (w w' : World) (r : EmailScrapingResult) :
  includeDuplicates options = false ->
  extractEmailsFromHTML v options w = (Normal r, w') ->
  NoDup (emails r).
Proof. apply extract_NoDup. Qed.

End ExtractorInvariants.

Lemma validation_drops_nothing_witness :
  extractEmailsFromHTML (host := latin1Host) (JString (js "To: A@b.io; c@d.org"))
    {| includeDuplicates := true; filterPattern := None |} emptyWorld =
  (Normal {| emails := match String_match (js "To: A@b.io; c@d.org") EMAIL_REGEX with
                       | Some ms => map (map asciiLower) ms
                       | None => []
                       end |}, emptyWorld).
Proof.
  refine (@validation_drops_nothing latin1Host (js "To: A@b.io; c@d.org") emptyWorld _).
  discriminate.
Defined.

Lemma extract_emails_valid_witness :
  isValidEmail (JString (js "jane@example.com")) = true.
Proof.
  refine (@extract_emails_valid latin1Host (JString sampleContent)
            defaultScrapingOptions emptyWorld emptyWorld
            {| emails := [js "jane@example.com"; js "bob@sub.example.co.uk"] |}
            (js "jane@example.com") _ _).
  - vm_compute. reflexivity.
  - now left.
Defined.

Lemma extract_emails_lowercase_witness :
  forallb isLowerAscii (js "jane@example.com") = true.
Proof.
  refine (@extract_emails_lowercase latin1Host (JString sampleContent)
            defaultScrapingOptions emptyWorld emptyWorld
            {| emails := [js "jane@example.com"; js "bob@sub.example.co.uk"] |}
            (js "jane@example.com") _ _).
  - vm_compute. reflexivity.
  - now left.
Defined.

Lemma extract_no_duplicates_witness :
  NoDup [js "jane@example.com"; js "bob@sub.example.co.uk"].
Proof.
  refine (@extract_no_duplicates latin1Host (JString sampleContent)
            defaultScrapingOptions emptyWorld emptyWorld
            {| emails := [js "jane@example.com"; js "bob@sub.example.co.uk"] |} _ _).
  - reflexivity.
  - vm_compute. reflexivity.
Defined.

(** ** The deduplicator, in general and after the extractor *)

Section DeduplicatorMore.
Context {host : Host}.

Lemma filterUnseen_covers (xs : list jsstring) :
  forall seen e,
    In e xs ->
    In (dedupeKey e) seen \/
    exists e', In e' (filterUnseen seen xs) /\ dedupeKey e' = dedupeKey e.
Proof.
  induction xs as [| x t IH]; intros seen e Hin; [destruct Hin |].
  simpl. fold (dedupeKey x).
  destruct (Set_has seen (dedupeKey x)) eqn:E.
  - destruct Hin as [<- | Hin]; [left; now apply Set_has_In | now apply IH].
  - destruct Hin as [<- | Hin]; [right; exists x; split; [now left | reflexivity] |].
    destruct (IH (Set_add seen (dedupeKey x)) e Hin) as [Hs | (e' & He' & Ek)].
    + apply Set_add_In in Hs as [Hs | Hs]; [now left |].
      right. exists x. split; [now left | now symmetry].
    + right. exists e'. split; [now right | assumption].
Qed.

(** X6. What [removeDuplicateEmails] keeps: entries of the input, no two
    with the same key (lower-cased, then trimmed), and one for every key
    that occurs in the input. *)
Theorem dedupe_keys (xs : list jsstring) :
  NoDup (map dedupeKey (removeDuplicateEmails (JArray xs))) /\
  (forall e, In e (removeDuplicateEmails (JArray xs)) -> In e xs) /\
  (forall e, In e xs ->
             exists e', In e' (removeDuplicateEmails (JArray xs)) /\
                        dedupeKey e' = dedupeKey e).
Proof.
  simpl. destruct (filterUnseen_keys xs []) as [N I]. split; [exact N |]. split.
  - intros e He. now destruct (I e He).
  - intros e He. destruct (filterUnseen_covers xs [] e He) as [[] | H]. exact H.
Qed.

Lemma filterUnseen_fixed (xs : list jsstring) :
  forall seen,
    NoDup xs ->
    (forall e, In e xs -> dedupeKey e = e) ->
    (forall e, In e xs -> ~ In e seen) ->
    filterUnseen seen xs = xs.
Proof.
  induction xs as [| x t IH]; intros seen N K D; simpl; [reflexivity |].
  fold (dedupeKey x). rewrite (K x (or_introl eq_refl)).
  inversion N as [| ? ? Hx Ht]; subst.
  assert (E : Set_has seen x = false) by (apply Set_has_false, D; now left).
  rewrite E. f_equal. apply IH; [assumption | |].
  - intros e He. apply K. now right.
  - intros e He Hs. apply Set_add_In in Hs as [Hs | ->].
    + apply (D e); [now right | assumption].
    + contradiction.
Qed.

Lemma strict_lower_key (e : jsstring) :
  strictForm e -> forallb isLowerAscii e = true -> dedupeKey e = e.
Proof.
  intros F L. unfold dedupeKey.
  rewrite (toLowerCase_ascii _ (strictForm_ascii F)), (asciiLower_id _ L).
  now apply strictForm_trim.
Qed.

(** X7. On what the extractor returns without duplicates,
    [removeDuplicateEmails] changes nothing: exact equality and equality
    of keys tell the same entries apart there. *)
Theorem extract_then_dedupe (v : JsValue) (options : ScrapingOptions)
        (w w' : World) (r : EmailScrapingResult) :
  includeDuplicates options = false ->
  extractEmailsFromHTML v options w = (Normal r, w') ->
  removeDuplicateEmails (JArray (emails r)) = emails r.
Proof.
  intros Hd Hrun. simpl. apply filterUnseen_fixed.
  - now apply extract_NoDup with v options w w'.
  - intros e He.
    destruct (@extract_origin _ v options w w' r e Hrun He) as (m & F & ->).
    apply strict_lower_key; [now apply strictForm_lower |].
    apply strictForm_ascii in F. rewrite forallb_forall in *.
    intros ch Hch. apply in_map_iff in Hch as (c & <- & Hc).
    apply asciiLower_lowerAscii. auto.
  - intros e _ [].
Qed.

(** ** [formatEmailsForDisplay] *)

(** X8. Displaying a list and displaying its deduplicated form give the
    same text, with or without the count line, for every argument. *)
Theorem display_of_deduped (v : JsValue) (includeCount : bool) :
  formatEmailsForDisplay (JArray (removeDuplicateEmails v)) includeCount =
  formatEmailsForDisplay v includeCount.
Proof.
  destruct v as [| | | | | xs |]; try reflexivity.
  destruct xs as [| x t]; [reflexivity |].
  unfold formatEmailsForDisplay.
  change (removeDuplicateEmails (JArray (removeDuplicateEmails (JArray (x :: t)))))
    with (filterUnseen [] (filterUnseen [] (x :: t))).
  rewrite filterUnseen_again by auto.
  change (removeDuplicateEmails (JArray (x :: t))) with (filterUnseen [] (x :: t)).
  simpl. reflexivity.
Qed.

(** X9. Without the count line, and when no email holds a line break,
    splitting the displayed text at line breaks gives back the
    deduplicated emails. *)
Theorem display_lines (xs : list jsstring) :
  xs <> [] ->
  (forall e, In e xs -> ~ In LF e) ->
  String_split (formatEmailsForDisplay (JArray xs) false) [LF] =
  removeDuplicateEmails (JArray xs).
Proof.
  intros Hne Hlf. destruct xs as [| x t]; [congruence |].
  unfold formatEmailsForDisplay.
  change (length (x :: t) =? 0)%nat with false. cbv iota zeta.
  apply split_join.
  - simpl. discriminate.
  - intros e He. apply Hlf.
    destruct (filterUnseen_keys (x :: t) []) as [_ I]. now destruct (I e He).
Qed.

End DeduplicatorMore.

Lemma extract_then_dedupe_witness :
  removeDuplicateEmails (host := latin1Host)
    (JArray [js "jane@example.com"; js "bob@sub.example.co.uk"]) =
  [js "jane@example.com"; js "bob@sub.example.co.uk"].
Proof.
  refine (@extract_then_dedupe latin1Host (JString sampleContent)
            defaultScrapingOptions emptyWorld emptyWorld
            {| emails := [js "jane@example.com"; js "bob@sub.example.co.uk"] |} _ _).
  - reflexivity.
  - vm_compute. reflexivity.
Defined.

Lemma display_lines_witness :
  String_split
    (formatEmailsForDisplay (host := latin1Host)
       (JArray [js "A@x.com"; js "a@x.com"; js "B@y.com"]) false) [LF] =
  removeDuplicateEmails (host := latin1Host)
    (JArray [js "A@x.com"; js "a@x.com"; js "B@y.com"]).
Proof.
  refine (@display_lines latin1Host [js "A@x.com"; js "a@x.com"; js "B@y.com"] _ _).
  - discriminate.
  - intros e [<- | [<- | [<- | []]]]; vm_compute;
      intros H; repeat (destruct H as [H | H]; [discriminate |]); exact H.
Defined.

(** ** More on copying *)

Section CopyingMore.
Variable browser : Browser.



Lemma Set_from_blank (xs : list jsstring) :
  xs <> [] -> (forall e, In e xs -> e = []) -> Set_from xs = [[]].
Proof.
  intros Hne Hall.
  pose proof (Set_from_NoDup xs) as N.
  pose proof (Set_from_nonempty Hne) as Hn.
  assert (Hs : forall e, In e (Set_from xs) -> e = []).
  { intros e He. apply Hall. now apply Set_from_In. }
  destruct (Set_from xs) as [| a [| b t]]; [congruence | |].
  - now rewrite (Hs a (or_introl eq_refl)).
  - exfalso. inversion N as [| ? ? Ha _]; subst. apply Ha.
    rewrite (Hs a (or_introl eq_refl)), (Hs b (or_intror (or_introl eq_refl))).
    now left.
Qed.

(** X11. A list that holds nothing but empty strings, copied without the
    header line, gives an empty payload, and the call reports failure on
    every browser, with the clipboard untouched. *)
Theorem copy_blank_emails_fails (xs : list jsstring)
        (options : PartialClipboardOptions) (w : World) :
  xs <> [] ->
  (forall e, In e xs -> e = []) ->
  includeHeaders (mergeOptions DEFAULT_CLIPBOARD_OPTIONS options) = false ->
  exists w',
    copyEmailsToClipboard browser (JArray xs) options w =
    (Normal {| success := false;
               message := js "Failed to copy to clipboard. Please try again." |}, w') /\
    clipboard w' = clipboard w.
Proof.
  intros Hne Hall Hh.
  assert (Hp : formatEmailsForClipboard (JArray xs) options = []).
  { rewrite format_nonempty by assumption.
    rewrite Hh, (Set_from_blank Hne Hall). reflexivity. }
  assert (Hlen : (length xs =? 0)%nat = false).
  { destruct xs; [congruence | reflexivity]. }
  unfold copyEmailsToClipboard, tryCatch, bind. rewrite Hlen, Hp.
  eexists. split; reflexivity.
Qed.


End CopyingMore.

Lemma copy_blank_emails_fails_witness :
  exists w',
    copyEmailsToClipboard
      {| asyncClipboard := true; writeTextResolves := true; execCommandCopy := None |}
      (JArray [[]; []]) noOptions emptyWorld =
    (Normal {| success := false;
               message := js "Failed to copy to clipboard. Please try again." |}, w') /\
    clipboard w' = clipboard emptyWorld.
Proof.
  refine (@copy_blank_emails_fails
            {| asyncClipboard := true; writeTextResolves := true;
               execCommandCopy := None |}
            [[]; []] noOptions emptyWorld _ _ eq_refl).
  - discriminate.
  - intros e [<- | [<- | []]]; reflexivity.
Defined.

(** ** From the extractor to the clipboard *)

Lemma strictForm_no_comma (s : jsstring) : strictForm s -> ~ In 44 s.
Proof.
  intros (l & d & t & -> & _ & Al & _ & Ad & _ & At) Hin.
  rewrite forallb_forall in *.
  apply in_app_or in Hin as [Hin | [E | Hin]];
    [specialize (Al _ Hin); discriminate | discriminate |].
  apply in_app_or in Hin as [Hin | [E | Hin]];
    [specialize (Ad _ Hin); discriminate | discriminate |].
  specialize (At _ Hin). discriminate.
Qed.

(** X13. The popup copies what the extractor returned with the separator
    [", "] and the header line. For a non-empty result without duplicates
    the count in the header is the number of extracted emails, the list
    after it is all of them in order, and splitting that list at [", "]
    gives them back. *)
Theorem extracted_payload {host : Host} (v : JsValue) (options : ScrapingOptions)
        (w w' : World) (r : EmailScrapingResult) :
  includeDuplicates options = false ->
  extractEmailsFromHTML v options w = (Normal r, w') ->
  emails r <> [] ->
  formatEmailsForClipboard (JArray (emails r)) (withOptions (js ", ") true) =
    js "Emails found (" ++ Number_toString (length (emails r)) ++ js "):" ++ [LF]
      ++ join (js ", ") (emails r) /\
  String_split (join (js ", ") (emails r)) (js ", ") = emails r.
Proof.
  intros Hd Hrun Hne. split.
  - rewrite format_nonempty by assumption. cbn [mergeOptions withOptions
      separator_opt includeHeaders_opt includeHeaders separator].
    rewrite (Set_from_NoDup_id (extract_NoDup _ _ _ Hd Hrun)).
    rewrite <- !app_assoc. reflexivity.
  - apply (@split_join 44 (js " ") (emails r) Hne).
    intros e He.
    destruct (@extract_origin _ v options w w' r e Hrun He) as (m & F & ->).
    apply strictForm_no_comma. now apply strictForm_lower.
Qed.

Lemma extracted_payload_witness :
  formatEmailsForClipboard
    (JArray [js "jane@example.com"; js "bob@sub.example.co.uk"])
    (withOptions (js ", ") true) =
    js "Emails found (" ++ Number_toString 2 ++ js "):" ++ [LF]
      ++ join (js ", ") [js "jane@example.com"; js "bob@sub.example.co.uk"] /\
  String_split (join (js ", ") [js "jane@example.com"; js "bob@sub.example.co.uk"])
               (js ", ") =
  [js "jane@example.com"; js "bob@sub.example.co.uk"].
Proof.
  refine (@extracted_payload latin1Host (JString sampleContent)
            defaultScrapingOptions emptyWorld emptyWorld
            {| emails := [js "jane@example.com"; js "bob@sub.example.co.uk"] |}
            eq_refl _ _).
  - vm_compute. reflexivity.
  - discriminate.
Defined.

(** ** The first popup script against the typed one *)

Lemma fold_Set_add_firsts (xs : list jsstring) :
  forall acc, fold_left Set_add xs acc = acc ++ firstsFrom acc xs.
Proof.
  induction xs as [| x t IH]; intros acc; simpl; [now rewrite app_nil_r |].
  rewrite IH. unfold Set_add. destruct (Set_has acc x); [reflexivity |].
  now rewrite <- app_assoc.
Qed.

Lemma firstsFrom_ext (xs : list jsstring) :
  forall a b, (forall y, In y a <-> In y b) -> firstsFrom a xs = firstsFrom b xs.
Proof.
  induction xs as [| x t IH]; intros a b H; simpl; [reflexivity |].
  assert (E : Set_has a x = Set_has b x).
  { apply eq_true_iff_eq. rewrite !Set_has_In. apply H. }
  rewrite E. destruct (Set_has b x); [now apply IH |].
  f_equal. apply IH. intros y. rewrite !in_app_iff. now rewrite H.
Qed.

Lemma indexOfFrom_seen (v : jsstring) (pre rest : list jsstring) :
  forall k, In v pre ->
            exists i, indexOfFrom v k (pre ++ rest) = Some i /\ (i < k + length pre)%nat.
Proof.
  induction pre as [| x pre IH]; intros k Hin; [destruct Hin |]. simpl.
  destruct (jsstring_eqb x v) eqn:E.
  - exists k. split; [reflexivity | lia].
  - destruct Hin as [-> | Hin].
    + assert (jsstring_eqb v v = true) by now apply jsstring_eqb_eq. congruence.
    + destruct (IH (S k) Hin) as (i & Hi & Hlt). exists i. split; [assumption | lia].
Qed.

Lemma indexOfFrom_unseen (v : jsstring) (pre rest : list jsstring) :
  forall k, ~ In v pre ->
            indexOfFrom v k (pre ++ rest) = indexOfFrom v (k + length pre) rest.
Proof.
  induction pre as [| x pre IH]; intros k Hin; simpl.
  - now rewrite Nat.add_0_r.
  - destruct (jsstring_eqb x v) eqn:E.
    + apply jsstring_eqb_eq in E. subst. exfalso. apply Hin. now left.
    + rewrite IH by (intros H; apply Hin; now right). f_equal. lia.
Qed.

Lemma onlyUnique_first (pre t : list jsstring) (x : jsstring) :
  onlyUnique x (length pre) (pre ++ x :: t) = negb (Set_has pre x).
Proof.
  unfold onlyUnique, Array_indexOf. destruct (Set_has pre x) eqn:E.
  - apply Set_has_In in E.
    destruct (indexOfFrom_seen x pre (x :: t) 0 E) as (i & -> & Hlt).
    simpl. apply Nat.eqb_neq. lia.
  - apply Set_has_false in E. rewrite (indexOfFrom_unseen x pre (x :: t) 0 E).
    simpl. assert (H : jsstring_eqb x x = true) by now apply jsstring_eqb_eq.
    rewrite H. apply Nat.eqb_refl.
Qed.

Lemma filterFrom_firsts (xs : list jsstring) :
  forall pre,
    filterFrom onlyUnique (pre ++ xs) (length pre) xs = firstsFrom pre xs.
Proof.
  induction xs as [| x t IH]; intros pre; simpl; [reflexivity |].
  rewrite onlyUnique_first.
  assert (Hrec : filterFrom onlyUnique (pre ++ x :: t) (S (length pre)) t =
                 firstsFrom (pre ++ [x]) t).
  { rewrite <- (IH (pre ++ [x])), <- app_assoc, length_app. simpl.
    now rewrite Nat.add_1_r. }
  rewrite Hrec. destruct (Set_has pre x) eqn:E; simpl; [| reflexivity].
  apply firstsFrom_ext. intros y. rewrite in_app_iff. simpl.
  apply Set_has_In in E. intuition congruence.
Qed.

(** X14. The first script's [emails.filter(onlyUnique)] keeps exactly what
    [[...new Set(emails)]] keeps, in the same order; so the text it copies
    is what [formatEmailsForClipboard] gives with its default options. *)
Theorem onlyUnique_is_Set (xs : list jsstring) :
  Array_filter onlyUnique xs = Set_from xs /\
  legacyClipboardText xs = formatEmailsForClipboard (JArray xs) noOptions.
Proof.
  assert (E : Array_filter onlyUnique xs = Set_from xs).
  { unfold Array_filter, Set_from.
    rewrite fold_Set_add_firsts. simpl. apply (filterFrom_firsts xs []). }
  split; [exact E |].
  unfold legacyClipboardText. rewrite E.
  destruct xs as [| x t]; [reflexivity | now rewrite format_nonempty].
Qed.

(** ** [ChromeService] *)

(** What the calls of the interface leave alone: the button, the timers,
    the events and the clipboard. *)
Definition uiOf (p : Popup) :=
  (buttonElement p, clipboardDisplay p, isScraping p, timers p, events p,
   clipboard (world p)).

Section ChromeServiceFacts.
Variable chrome : Chrome.

Lemma getActiveTab_run (p : Popup) :
  exists p',
    uiOf p' = uiOf p /\ calls p' = bumpQueries (calls p) /\
    ((exists tab rest,
         tabsQuery chrome (queries (calls p)) = Normal (tab :: rest) /\
         tabHasId tab = true /\
         ChromeService.getActiveTab chrome p = (Normal tab, p') /\
         world p' = world p) \/
     ((forall tab rest, tabsQuery chrome (queries (calls p)) = Normal (tab :: rest) ->
                        tabHasId tab = false) /\
      ChromeService.getActiveTab chrome p =
      (Throw (Error (js "Failed to get active tab")), p'))).
Proof.
  unfold ChromeService.getActiveTab, attempt, andThen, callApi.
  destruct (tabsQuery chrome (queries (calls p))) as [[| tab rest] | e] eqn:Q.
  - eexists. split; [| split; [| right; split; [| reflexivity]]];
      [reflexivity | reflexivity | discriminate].
  - destruct (tabHasId tab) eqn:T; simpl.
    + eexists. split; [| split; [| left; exists tab, rest; auto]]; reflexivity.
    + eexists. split; [| split; [| right; split; [| reflexivity]]];
        [reflexivity | reflexivity |].
      intros tab' rest' E. now injection E as <- _.
  - eexists. split; [| split; [| right; split; [| reflexivity]]];
      [reflexivity | reflexivity | discriminate].
Qed.

(** X15. [getActiveTab] either returns the first tab of the answer, which
    then has a non-zero id, or throws [Failed to get active tab]: whether
    the query was rejected, answered with no tab, or with a tab without
    id, the caller sees that one message. *)
Theorem getActiveTab_outcome (p : Popup) :
  exists p',
    (exists tab rest,
        tabsQuery chrome (queries (calls p)) = Normal (tab :: rest) /\
        tabHasId tab = true /\
        ChromeService.getActiveTab chrome p = (Normal tab, p')) \/
    ((forall tab rest, tabsQuery chrome (queries (calls p)) = Normal (tab :: rest) ->
                       tabHasId tab = false) /\
     ChromeService.getActiveTab chrome p =
     (Throw (Error (js "Failed to get active tab")), p')).
Proof.
  destruct (getActiveTab_run p) as (p' & _ & _ & [(tab & rest & Q & T & R & _) | H]);
    exists p'; [left; eauto | now right].
Qed.

Lemma executeScript_run (p : Popup) :
  exists p',
    uiOf p' = uiOf p /\
    ((exists tab rest results,
         tabsQuery chrome (queries (calls p)) = Normal (tab :: rest) /\
         tabHasId tab = true /\
         scriptingExecute chrome (executions (calls p)) = Normal results /\
         ChromeService.executeScript chrome p = (Normal results, p') /\
         world p' = world p) \/
     ChromeService.executeScript chrome p =
     (Throw (Error (js "Failed to execute script in tab")), p')).
Proof.
  unfold ChromeService.executeScript, attempt, andThen.
  destruct (getActiveTab_run p)
    as (p1 & U1 & C1 & [(tab & rest & Q & T & -> & W1) | (_ & ->)]).
  - rewrite T. simpl. unfold callApi. rewrite C1. simpl.
    destruct (scriptingExecute chrome (executions (calls p))) as [results | e] eqn:X.
    + exists (withCalls bumpExecutions p1). split; [exact U1 |].
      left. exists tab, rest, results.
      split; [exact Q |]. split; [exact T |]. split; [reflexivity |].
      split; [reflexivity | exact W1].
    + eexists. split; [| right; reflexivity]. exact U1.
  - eexists. split; [| right; reflexivity]. exact U1.
Qed.

(** X16. [executeScript] returns the results of the injection exactly when
    the active tab is found and the injection resolves. When no tab with an
    id is found, or when the injection is rejected, it throws
    [Failed to execute script in tab], never the reason beneath. *)
Theorem executeScript_outcome (p : Popup) :
  exists p',
    (exists tab rest results,
        tabsQuery chrome (queries (calls p)) = Normal (tab :: rest) /\
        tabHasId tab = true /\
        scriptingExecute chrome (executions (calls p)) = Normal results /\
        ChromeService.executeScript chrome p = (Normal results, p')) \/
    (((forall tab rest, tabsQuery chrome (queries (calls p)) = Normal (tab :: rest) ->
                        tabHasId tab = false) \/
      (exists e, scriptingExecute chrome (executions (calls p)) = Throw e)) /\
     ChromeService.executeScript chrome p =
     (Throw (Error (js "Failed to execute script in tab")), p')).
Proof.
  unfold ChromeService.executeScript, attempt, andThen.
  destruct (getActiveTab_run p)
    as (p1 & U1 & C1 & [(tab & rest & Q & T & -> & W1) | (N & ->)]).
  - rewrite T. simpl. unfold callApi. rewrite C1. simpl.
    destruct (scriptingExecute chrome (executions (calls p))) as [results | e] eqn:X.
    + eexists. left. exists tab, rest, results.
      split; [exact Q |]. split; [exact T |]. split; reflexivity.
    + eexists. right. split; [right; now exists e | reflexivity].
  - eexists. right. split; [left; exact N | reflexivity].
Qed.

Lemma includesPermission_In (granted : option (list jsstring)) (name : jsstring) :
  ChromeService.includesPermission granted name = true <->
  exists ps, granted = Some ps /\ In name ps.
Proof.
  unfold ChromeService.includesPermission. destruct granted as [ps |].
  - rewrite existsb_exists. split.
    + intros (x & Hx & E). apply jsstring_eqb_eq in E. subst. eauto.
    + intros (ps' & E & Hin). injection E as <-. exists name.
      split; [assumption | now apply jsstring_eqb_eq].
  - split; [discriminate | intros (ps & E & _); discriminate].
Qed.

Lemma checkPermissions_run (p : Popup) :
  exists b p',
    ChromeService.checkPermissions chrome p = (Normal b, p') /\
    uiOf p' = uiOf p /\ calls p' = bumpGetAlls (calls p) /\
    (b = true <->
     exists ps, permissionsGetAll chrome (getAlls (calls p)) = Normal (Some ps) /\
                In (js "activeTab") ps /\ In (js "scripting") ps).
Proof.
  unfold ChromeService.checkPermissions, attempt, andThen, callApi.
  destruct (permissionsGetAll chrome (getAlls (calls p))) as [granted | e] eqn:G.
  - eexists. eexists. split; [reflexivity |]. split; [reflexivity |].
    split; [reflexivity |].
    unfold pure, ChromeService.requiredPermissions. cbn [forallb].
    rewrite andb_true_r, andb_true_iff, !includesPermission_In. split.
    + intros [(ps & -> & H1) (ps' & E & H2)]. injection E as <-.
      exists ps. auto.
    + intros (ps & E & H1 & H2). injection E as ->. split; exists ps; auto.
  - eexists. eexists. split; [reflexivity |]. split; [reflexivity |].
    split; [reflexivity |].
    split; [discriminate | intros (ps & E & _); discriminate].
Qed.

(** X17. [checkPermissions] never rejects: it answers [true] exactly when
    the browser lists both [activeTab] and [scripting] among the granted
    permissions, and [false] when one is missing, when the list itself is
    missing, or when the query fails. *)
Theorem checkPermissions_outcome (p : Popup) :
  exists b p',
    ChromeService.checkPermissions chrome p = (Normal b, p') /\
    (b = true <->
     exists ps, permissionsGetAll chrome (getAlls (calls p)) = Normal (Some ps) /\
                In (js "activeTab") ps /\ In (js "scripting") ps).
Proof.
  destruct (checkPermissions_run p) as (b & p' & R & _ & _ & H). eauto.
Qed.

Lemma requestPermissions_run (p : Popup) :
  exists b p',
    ChromeService.requestPermissions chrome p = (Normal b, p') /\
    uiOf p' = uiOf p /\
    ((exists ps, permissionsGetAll chrome (getAlls (calls p)) = Normal (Some ps) /\
                 In (js "activeTab") ps /\ In (js "scripting") ps) ->
     b = true /\ requests (calls p') = requests (calls p)) /\
    (~ (exists ps, permissionsGetAll chrome (getAlls (calls p)) = Normal (Some ps) /\
                   In (js "activeTab") ps /\ In (js "scripting") ps) ->
     requests (calls p') = S (requests (calls p)) /\
     (b = true <-> permissionsRequest chrome (requests (calls p)) = Normal true)).
Proof.
  unfold ChromeService.requestPermissions, attempt, andThen.
  destruct (checkPermissions_run p) as (has & p1 & -> & U1 & C1 & H1).
  destruct has.
  - eexists. eexists. split; [reflexivity |]. split; [exact U1 |]. split.
    + intros _. rewrite C1. split; reflexivity.
    + intros N. exfalso. apply N, H1. reflexivity.
  - unfold callApi. rewrite C1. simpl.
    assert (N1 : ~ (exists ps,
                       permissionsGetAll chrome (getAlls (calls p)) = Normal (Some ps) /\
                       In (js "activeTab") ps /\ In (js "scripting") ps)).
    { intros H. apply H1 in H. discriminate. }
    destruct (permissionsRequest chrome (requests (calls p))) as [granted | e] eqn:R.
    + eexists. eexists. split; [reflexivity |]. split; [exact U1 |]. split.
      * intros H. contradiction.
      * intros _. split; [simpl; rewrite C1; reflexivity |]. split; congruence.
    + eexists. eexists. split; [reflexivity |]. split; [exact U1 |]. split.
      * intros H. contradiction.
      * intros _. split; [simpl; rewrite C1; reflexivity |]. split; discriminate.
Qed.

(** X18. [requestPermissions] never rejects. When both permissions are
    already granted it answers [true] without asking the user; otherwise
    it asks once and answers [true] exactly when the request resolves to
    [true]. *)
Theorem requestPermissions_outcome (p : Popup) :
  exists b p',
    ChromeService.requestPermissions chrome p = (Normal b, p') /\
    ((exists ps, permissionsGetAll chrome (getAlls (calls p)) = Normal (Some ps) /\
                 In (js "activeTab") ps /\ In (js "scripting") ps) ->
     b = true /\ requests (calls p') = requests (calls p)) /\
    (~ (exists ps, permissionsGetAll chrome (getAlls (calls p)) = Normal (Some ps) /\
                   In (js "activeTab") ps /\ In (js "scripting") ps) ->
     requests (calls p') = S (requests (calls p)) /\
     (b = true <-> permissionsRequest chrome (requests (calls p)) = Normal true)).
Proof.
  destruct (requestPermissions_run p) as (b & p' & R & _ & H). eauto.
Qed.

End ChromeServiceFacts.

(** ** [ScrapeButton] *)

Lemma classAdd_In (c : jsstring) (cs : list jsstring) : In c (classAdd c cs).
Proof.
  unfold classAdd. destruct (existsb (jsstring_eqb c) cs) eqn:E.
  - apply existsb_exists in E as (x & Hx & E). apply jsstring_eqb_eq in E. now subst.
  - apply in_or_app. right. now left.
Qed.

Lemma classAdd_keeps (c d : jsstring) (cs : list jsstring) :
  In d cs -> In d (classAdd c cs).
Proof.
  intros H. unfold classAdd. destruct (existsb (jsstring_eqb c) cs);
    [assumption | apply in_or_app; now left].
Qed.

Lemma classRemove_In (c d : jsstring) (cs : list jsstring) :
  In d (classRemove c cs) <-> In d cs /\ c <> d.
Proof.
  unfold classRemove. rewrite filter_In, negb_true_iff. split.
  - intros [H E]. split; [assumption |]. intros ->.
    assert (jsstring_eqb d d = true) by now apply jsstring_eqb_eq. congruence.
  - intros [H N]. split; [assumption |].
    destruct (jsstring_eqb c d) eqn:E; [| reflexivity].
    apply jsstring_eqb_eq in E. contradiction.
Qed.

Section ScrapeButtonFacts.
Variable chrome : Chrome.

(** The state of the button once scraping is declared over. *)
Definition settled (p : Popup) : Popup :=
  withButton (fun e => removeClass (js "scraping")
                         (setText (js "Scrape") (setDisabled false e)))
             (withScraping false p).

Lemma setScrapingState_false (p : Popup) :
  ScrapeButton.setScrapingState false p = (Normal tt, settled p).
Proof. reflexivity. Qed.

Lemma performEmailScraping_run (p : Popup) :
  exists p',
    (ScrapeButton.performEmailScraping chrome p = (Normal tt, p') /\
     buttonElement p' = setText (js "Success!") (addClass (js "success") (buttonElement p)) /\
     timers p' = timers p ++ [(2000%nat, ResetSuccess)] /\
     events p' = events p /\ isScraping p' = isScraping p) \/
    (exists msg,
        (msg = js "Required permissions not granted" \/
         msg = js "Failed to execute script in tab") /\
        ScrapeButton.performEmailScraping chrome p = (Throw (Error msg), p') /\
        uiOf p' = uiOf p).
Proof.
  assert (Hexec : forall q, uiOf q = uiOf p -> exists p',
    ((_ <~ ChromeService.executeScript chrome ;; ScrapeButton.showSuccessState) q
       = (Normal tt, p') /\
     buttonElement p' = setText (js "Success!") (addClass (js "success") (buttonElement p)) /\
     timers p' = timers p ++ [(2000%nat, ResetSuccess)] /\
     events p' = events p /\ isScraping p' = isScraping p /\
     True) \/
    ((_ <~ ChromeService.executeScript chrome ;; ScrapeButton.showSuccessState) q
       = (Throw (Error (js "Failed to execute script in tab")), p') /\
     uiOf p' = uiOf p)).
  { intros q Uq. unfold andThen.
    destruct (executeScript_run chrome q)
      as (q1 & U1 & [(tab & rest & results & _ & _ & _ & -> & _) | ->]).
    - eexists. left. split; [reflexivity |].
      rewrite Uq in U1. unfold uiOf in U1. injection U1 as Eb Ed Es Et Ee Ec.
      simpl. rewrite Eb, Et, Ee, Es. auto.
    - exists q1. right. split; [reflexivity | congruence]. }
  unfold ScrapeButton.performEmailScraping, attempt, andThen.
  destruct (checkPermissions_run chrome p) as (has & p1 & -> & U1 & _ & _).
  destruct has; simpl.
  - destruct (Hexec p1 U1) as (p2 & [(R & Hb & Ht & He & Hs & _) | (R & U2)]).
    + unfold andThen in R. rewrite R. exists p2. left. auto.
    + unfold andThen in R. rewrite R. eexists. right.
      exists (js "Failed to execute script in tab").
      split; [now right |]. split; [reflexivity | exact U2].
  - destruct (requestPermissions_run chrome p1) as (granted & p2 & -> & U2 & _).
    assert (U2' : uiOf p2 = uiOf p) by congruence.
    destruct granted; simpl.
    + destruct (Hexec p2 U2') as (p3 & [(R & Hb & Ht & He & Hs & _) | (R & U3)]).
      * unfold andThen in R. rewrite R. exists p3. left. auto.
      * unfold andThen in R. rewrite R. eexists. right.
        exists (js "Failed to execute script in tab").
        split; [now right |]. split; [reflexivity | exact U3].
    + eexists. right. exists (js "Required permissions not granted").
      split; [now left |]. split; [reflexivity | exact U2'].
Qed.

(** X19. Called while [isScraping] is set, the click handler starts
    nothing: no call of the extension interface, nothing logged, no timer,
    no event. But its [finally] runs all the same and declares the scrape
    over: [isScraping] is cleared and the button enabled again. *)
Theorem click_while_scraping (p : Popup) :
  isScraping p = true ->
  exists p',
    ScrapeButton.handleScrapeClick chrome p = (Normal tt, p') /\
    calls p' = calls p /\ world p' = world p /\
    timers p' = timers p /\ events p' = events p /\
    isScraping p' = false /\ disabled (buttonElement p') = false.
Proof.
  intros H. exists (settled p).
  unfold ScrapeButton.handleScrapeClick, ensure, attempt. rewrite H.
  repeat split.
Qed.

Lemma handleScrapeClick_run (p : Popup) :
  isScraping p = false ->
  exists q,
    ScrapeButton.handleScrapeClick chrome p = (Normal tt, settled q) /\
    ((events q = events p /\ timers q = timers p ++ [(2000%nat, ResetSuccess)] /\
      In (js "success") (classList (buttonElement q))) \/
     (exists msg,
         (msg = js "Required permissions not granted" \/
          msg = js "Failed to execute script in tab") /\
         events q = events p ++ [msg] /\
         timers q = timers p ++ [(3000%nat, ResetError)] /\
         In (js "error") (classList (buttonElement q)))).
Proof.
  intros H. unfold ScrapeButton.handleScrapeClick, ensure, attempt. rewrite H.
  unfold andThen at 1.
  set (p0 := withButton
               (fun e => addClass (js "scraping")
                           (setText (js "Scraping...") (setDisabled true e)))
               (withScraping true p)).
  change (ScrapeButton.setScrapingState true p) with (Normal tt, p0).
  destruct (performEmailScraping_run p0)
    as (p1 & [(-> & Hb & Ht & He & _) | (msg & Hmsg & -> & U)]).
  - exists p1. split; [reflexivity |]. left.
    rewrite He, Ht, Hb. repeat split. simpl. apply classAdd_In.
  - eexists. split; [reflexivity |]. right. exists msg.
    unfold uiOf in U. injection U as Eb Ed Es Et Ee Ec.
    split; [exact Hmsg |]. simpl. rewrite Ee, Et, Eb.
    repeat split. apply classAdd_In.
Qed.

(** X20. A run of the click handler ends when the calls of the extension
    interface it awaits have settled, as every answer of [Chrome] has; a
    call that never settles leaves it waiting ahead of its [finally]. Every
    run that ends, on the idle button or not, ends normally with
    [isScraping] cleared, the button enabled, without the class [scraping],
    and labelled [Scrape]: the labels [Success!] and [Error!] are
    overwritten before it returns. *)
Theorem click_settles (p p' : Popup) (c : Completion unit) :
  ScrapeButton.handleScrapeClick chrome p = (c, p') ->
  c = Normal tt /\
  isScraping p' = false /\
  disabled (buttonElement p') = false /\
  textContent (buttonElement p') = js "Scrape" /\
  ~ In (js "scraping") (classList (buttonElement p')).
Proof.
  intros Hrun.
  assert (Hs : forall q, isScraping (settled q) = false /\
                         disabled (buttonElement (settled q)) = false /\
                         textContent (buttonElement (settled q)) = js "Scrape" /\
                         ~ In (js "scraping") (classList (buttonElement (settled q)))).
  { intros q. repeat split. simpl. intros Hin.
    apply classRemove_In in Hin as [_ N]. now apply N. }
  assert (Hq : exists q, ScrapeButton.handleScrapeClick chrome p = (Normal tt, settled q)).
  { destruct (isScraping p) eqn:H.
    - exists p. unfold ScrapeButton.handleScrapeClick, ensure, attempt. now rewrite H.
    - destruct (@handleScrapeClick_run p H) as (q & R & _). now exists q. }
  destruct Hq as (q & R). rewrite R in Hrun. injection Hrun as <- <-.
  split; [reflexivity | apply Hs].
Qed.

(** X21. A click on the idle button ends in one of two ways. Either the
    scrape went through: no error event, one timer of 2000 ms to take the
    class [success] off again. Or it failed: one [scrapingError] event,
    whose message is [Required permissions not granted] or
    [Failed to execute script in tab] and nothing else, and one timer of
    3000 ms for the class [error]. *)
Theorem click_outcome (p : Popup) :
  isScraping p = false ->
  exists p',
    ScrapeButton.handleScrapeClick chrome p = (Normal tt, p') /\
    ((events p' = events p /\ timers p' = timers p ++ [(2000%nat, ResetSuccess)] /\
      In (js "success") (classList (buttonElement p'))) \/
     (exists msg,
         (msg = js "Required permissions not granted" \/
          msg = js "Failed to execute script in tab") /\
         events p' = events p ++ [msg] /\
         timers p' = timers p ++ [(3000%nat, ResetError)] /\
         In (js "error") (classList (buttonElement p')))).
Proof.
  intros H. destruct (@handleScrapeClick_run p H) as (q & R & Hq).
  exists (settled q). split; [exact R |].
  assert (Hkeep : forall c, c <> js "scraping" ->
                            In c (classList (buttonElement q)) ->
                            In c (classList (buttonElement (settled q)))).
  { intros c Hc Hin. simpl. apply classRemove_In. split; [assumption | congruence]. }
  destruct Hq as [(He & Ht & Hc) | (msg & Hm & He & Ht & Hc)].
  - left. repeat split; [exact He | exact Ht |]. apply Hkeep; [discriminate | exact Hc].
  - right. exists msg. repeat split; [exact Hm | exact He | exact Ht |].
    apply Hkeep; [discriminate | exact Hc].
Qed.

End ScrapeButtonFacts.

Lemma click_while_scraping_witness :
  exists p',
    ScrapeButton.handleScrapeClick readyChrome (withScraping true idlePopup) =
    (Normal tt, p') /\
    calls p' = calls (withScraping true idlePopup) /\
    world p' = world (withScraping true idlePopup) /\
    timers p' = timers (withScraping true idlePopup) /\
    events p' = events (withScraping true idlePopup) /\
    isScraping p' = false /\ disabled (buttonElement p') = false.
Proof. exact (@click_while_scraping readyChrome (withScraping true idlePopup) eq_refl). Defined.

Lemma click_outcome_witness :
  exists p',
    ScrapeButton.handleScrapeClick readyChrome idlePopup = (Normal tt, p') /\
    ((events p' = events idlePopup /\
      timers p' = timers idlePopup ++ [(2000%nat, ResetSuccess)] /\
      In (js "success") (classList (buttonElement p'))) \/
     (exists msg,
         (msg = js "Required permissions not granted" \/
          msg = js "Failed to execute script in tab") /\
         events p' = events idlePopup ++ [msg] /\
         timers p' = timers idlePopup ++ [(3000%nat, ResetError)] /\
         In (js "error") (classList (buttonElement p')))).
Proof. exact (@click_outcome readyChrome idlePopup eq_refl). Defined.

Lemma click_settles_witness :
  let run := ScrapeButton.handleScrapeClick readyChrome idlePopup in
  fst run = Normal tt /\
  isScraping (snd run) = false /\
  disabled (buttonElement (snd run)) = false /\
  textContent (buttonElement (snd run)) = js "Scrape" /\
  ~ In (js "scraping") (classList (buttonElement (snd run))).
Proof.
  intros run.
  exact (@click_settles readyChrome idlePopup (snd run) (fst run)
           (surjective_pairing run)).
Defined.

(** ** The injected script *)

Section InPageFacts.
Context {host : Host}.
Variable document : Document.

(** X22. [scrapeEmailsFromPage] posts one message at most. When its first
    call of [sendMessage] goes through, it fulfils with the emails it
    posted: the extraction of the body's markup, without repetitions and
    each accepted by [isValidEmail], or none when the document has no body.
    When the call in the [try] block throws and the one in the [catch]
    block goes through, it fulfils with no emails and posts the empty
    list. It rejects, having posted nothing, when the call in the [catch]
    block throws. *)
Theorem scrape_posts_result (p : Page) :
  (runtimeConnected document (sendCalls p) = true ->
   exists r p',
     scrapeEmailsFromPage document p = (Normal r, p') /\
     outbox p' = outbox p ++ [emails r] /\
     NoDup (emails r) /\
     (forall e, In e (emails r) -> isValidEmail (JString e) = true) /\
     (bodyInnerHTML document = None -> emails r = []) /\
     (forall html,
         bodyInnerHTML document = Some html ->
         fst (extractEmailsFromHTML (JString html)
                {| includeDuplicates := false; filterPattern := None |}
                (pageWorld p)) = Normal r)) /\
  (runtimeConnected document (sendCalls p) = false ->
   (exists html, bodyInnerHTML document = Some html) ->
   runtimeConnected document (S (sendCalls p)) = true ->
   exists p',
     scrapeEmailsFromPage document p = (Normal {| emails := [] |}, p') /\
     outbox p' = outbox p ++ [[]]) /\
  (runtimeConnected document (sendCalls p) = false ->
   bodyInnerHTML document = None \/
   runtimeConnected document (S (sendCalls p)) = false ->
   exists e p',
     scrapeEmailsFromPage document p = (Throw e, p') /\ outbox p' = outbox p).
Proof.
  unfold scrapeEmailsFromPage, attempt, andThen, postEmails, liftPage.
  split; [| split].
  - intros Hc. destruct (bodyInnerHTML document) as [html |] eqn:B.
    + unfold pure at 1.
      destruct (extract_fulfils (JString html)
                  {| includeDuplicates := false; filterPattern := None |}
                  (pageWorld p)) as (r & w' & R).
      rewrite R. cbn [pageWorld outbox sendCalls]. rewrite Hc. unfold pure.
      exists r. eexists. split; [reflexivity |]. split; [reflexivity |].
      split; [apply (@extract_NoDup _ (JString html)
                       {| includeDuplicates := false; filterPattern := None |}
                       (pageWorld p) w' r eq_refl R) |].
      split; [| split; [discriminate |]].
      * intros e He.
        destruct (@extract_origin _ _ _ _ _ _ e R He) as (m & F & ->).
        apply strictForm_lower in F. apply isValidEmail_iff.
        now rewrite (strictForm_trim F).
      * intros html' E. injection E as <-. now rewrite R.
    + unfold raise, consoleError. cbn [pageWorld outbox sendCalls]. rewrite Hc.
      eexists. eexists. split; [reflexivity |]. split; [reflexivity |].
      split; [constructor |]. split; [intros e [] |].
      split; [reflexivity | discriminate].
  - intros Hc (html & B) Hc'. rewrite B. unfold pure at 1.
    destruct (extract_fulfils (JString html)
                {| includeDuplicates := false; filterPattern := None |}
                (pageWorld p)) as (r & w' & R).
    rewrite R. cbn [pageWorld outbox sendCalls]. rewrite Hc.
    unfold consoleError. cbn [pageWorld outbox sendCalls]. rewrite Hc'.
    eexists. split; reflexivity.
  - intros Hc Hor. destruct (bodyInnerHTML document) as [html |] eqn:B.
    + destruct Hor as [Hor | Hc']; [discriminate |].
      unfold pure at 1.
      destruct (extract_fulfils (JString html)
                  {| includeDuplicates := false; filterPattern := None |}
                  (pageWorld p)) as (r & w' & R).
      rewrite R. cbn [pageWorld outbox sendCalls]. rewrite Hc.
      unfold consoleError. cbn [pageWorld outbox sendCalls]. rewrite Hc'.
      eexists. eexists. split; reflexivity.
    + unfold raise, consoleError. cbn [pageWorld outbox sendCalls]. rewrite Hc.
      eexists. eexists. split; reflexivity.
Qed.

End InPageFacts.

Lemma scrape_posts_result_witness :
  exists p',
    scrapeEmailsFromPage (host := latin1Host)
      {| bodyInnerHTML := Some sampleContent;
         runtimeConnected := fun n => negb (Nat.eqb n 0) |}
      {| pageWorld := emptyWorld; outbox := []; sendCalls := 0 |} =
    (Normal {| emails := [] |}, p') /\
    outbox p' = [] ++ [[]].
Proof.
  refine (proj1 (proj2 (@scrape_posts_result latin1Host
                          {| bodyInnerHTML := Some sampleContent;
                             runtimeConnected := fun n => negb (Nat.eqb n 0) |}
                          {| pageWorld := emptyWorld; outbox := []; sendCalls := 0 |}))
                eq_refl _ eq_refl).
  now exists sampleContent.
Defined.

(** ** The validator on every value *)

(** X23. [isValidEmail] accepts a value exactly when it is a string whose
    trimmed form is [local@domain.tld]: a non-empty local part of letters,
    digits and [. _ % + -], a non-empty domain of letters, digits, [.] and
    [-], and at least two letters after the last dot. Everything else,
    strings or not, it answers with [false]. *)
Theorem isValidEmail_exact (v : JsValue) :
  isValidEmail v = true <-> exists s, v = JString s /\ strictForm (trim s).
Proof.
  split.
  - intros H. destruct v as [| | b | n | s | xs |];
      try (unfold isValidEmail in H; simpl in H;
           rewrite ?orb_true_r in H; discriminate).
    exists s. split; [reflexivity | now apply isValidEmail_iff].
  - intros (s & -> & F). now apply isValidEmail_iff.
Qed.
